(** * scripts/fix_unwraps.py: the unwrap/expect/panic audit tool

    A shallow embedding of the [UnwrapFixer] class and the properties of
    its file discovery, line analysis, suggestion synthesis, report and
    companion script. *)

From Stdlib Require Import Ascii String NArith Bool Arith Lia List.
From Stdlib Require Import Sorting.Sorted Sorting.Permutation.
From Stdlib Require DecimalString.
Import ListNotations.

(** ** Python strings

    A Python [str] is a sequence of Unicode code points. *)

Definition char := N.
Definition str := list char.

(** A string literal of the source (all of them are ASCII). *)
Definition py (s : string) : str := map N_of_ascii (list_ascii_of_string s).

Definition NL : char := 10%N.
Definition QUOTE : char := 34%N.
Definition HASH : char := 35%N.

(** [s.startswith(p)] *)
Fixpoint startswith (s p : str) {struct p} : bool :=
  match p with
  | [] => true
  | a :: p' =>
      match s with
      | [] => false
      | b :: s' => N.eqb a b && startswith s' p'
      end
  end.

(** [s.endswith(p)] *)
Definition endswith (s p : str) : bool := startswith (rev s) (rev p).

(** [p in s]: [p] occurs in [s] as a substring.  It is also
    [re.compile(p').search(s)] for a pattern [p'] that escapes a literal
    [p]. *)
Fixpoint str_in (p s : str) : bool :=
  startswith s p ||
  match s with
  | [] => false
  | _ :: t => str_in p t
  end.

(** [c.isspace()], the characters [str.strip()] removes. *)
Definition isspace (c : char) : bool :=
  ((9 <=? c) && (c <=? 13) || (28 <=? c) && (c <=? 32) ||
   (c =? 133) || (c =? 160) || (c =? 5760) ||
   (8192 <=? c) && (c <=? 8202) || (c =? 8232) || (c =? 8233) ||
   (c =? 8239) || (c =? 8287) || (c =? 12288))%N.

Fixpoint lstrip (s : str) : str :=
  match s with
  | [] => []
  | c :: t => if isspace c then lstrip t else s
  end.

(** [s.strip()] *)
Definition strip (s : str) : str := rev (lstrip (rev (lstrip s))).

(** [s.replace(old, new)]: every non-overlapping occurrence of [old],
    leftmost first.  [skip] counts the characters of an occurrence just
    replaced that are still to be passed over. *)
Fixpoint replace_from (old new : str) (skip : nat) (s : str) : str :=
  match s with
  | [] => []
  | c :: t =>
      match skip with
      | S k => replace_from old new k t
      | O =>
          if startswith s old
          then new ++ replace_from old new (length old - 1) t
          else c :: replace_from old new 0 t
      end
  end.

Definition replace (s old new : str) : str :=
  match old with
  | [] => new ++ flat_map (fun c => c :: new) s
  | _ :: _ => replace_from old new 0 s
  end.

(** [str(n)] for a non-negative [int], as an f-string renders it. *)
Definition str_of_nat (n : nat) : str :=
  py (DecimalString.NilEmpty.string_of_uint (Nat.to_uint n)).

(** [s < t] and [s <= t] on [str]: lexicographic on code points. *)
Fixpoint str_ltb (s t : str) : bool :=
  match s, t with
  | _, [] => false
  | [], _ :: _ => true
  | a :: s', b :: t' => (a <? b)%N || (a =? b)%N && str_ltb s' t'
  end.

Definition str_leb (s t : str) : bool := negb (str_ltb t s).

Fixpoint str_eqb (s t : str) : bool :=
  match s, t with
  | [], [] => true
  | a :: s', b :: t' => (a =? b)%N && str_eqb s' t'
  | _, _ => false
  end.

(** ** The pattern catalogue ([UnwrapFixer.__init__]) *)

Definition UNWRAP_CALL : str := py ".unwrap()".
Definition EXPECT_OPEN : str := py ".expect(" ++ [QUOTE].
Definition PANIC_OPEN : str := py "panic!(".
Definition PANIC_MSG_OPEN : str := py "panic!(" ++ [QUOTE].
Definition MSG_CLOSE : str := QUOTE :: py ")".

(** [unwrap_pattern.search(line)], pattern [\.unwrap\(\)] *)
Definition unwrap_pattern (line : str) : bool := str_in UNWRAP_CALL line.

(** [panic_pattern.search(line)], pattern [panic!\(] *)
Definition panic_pattern (line : str) : bool := str_in PANIC_OPEN line.

(** [test_pattern.search(line)], pattern
    [#\[cfg\(test\)\]|#\[test\]|mod tests] *)
Definition test_pattern (line : str) : bool :=
  str_in (py "#[cfg(test)]") line || str_in (py "#[test]") line ||
  str_in (py "mod tests") line.

(** The longest run of characters other than the double quote at the
    head of [s]: what the group of the pattern takes (a starred
    negated class holding only the double quote). *)
Fixpoint msg_run (s : str) : str :=
  match s with
  | [] => []
  | c :: t => if (c =? QUOTE)%N then [] else c :: msg_run t
  end.

(** A match anchored at the head of [s] of: the literal [opening], the
    group, a double quote and a closing parenthesis; the result is
    group 1.  The group cannot stop short of the first double quote, so
    there is nothing to backtrack over. *)
Definition match_quoted (opening s : str) : option str :=
  if startswith s opening then
    let rest := skipn (length opening) s in
    let m := msg_run rest in
    if startswith (skipn (length m) rest) MSG_CLOSE then Some m else None
  else None.

(** [re.search] for such a pattern: the leftmost match. *)
Fixpoint search_quoted (opening s : str) : option str :=
  match match_quoted opening s with
  | Some m => Some m
  | None =>
      match s with
      | [] => None
      | _ :: t => search_quoted opening t
      end
  end.

(** [expect_pattern.search(line)]: the pattern is the literal
    [.expect(], a double quote, the group, a double quote and [)];
    [Some m] is a match whose [group(1)] is [m]. *)
Definition expect_pattern (line : str) : option str :=
  search_quoted EXPECT_OPEN line.

(** ** Paths and the file system *)

(** A [pathlib.Path] as the program observes it: [str(p)], [p.name] and
    [str(p.parent)]. *)
Record Path := mkPath { path_str : str; parent : str; name : str }.

(** What [open(file_path).readlines()] gives: the lines, each with its
    line break, or an exception with its message. *)
Inductive read_result :=
| ReadOk (lines : list str)
| ReadErr (e : str).

(** ** Output *)

Inductive stream := Stdout | Stderr.

(** A chunk of text written to one of the process's streams. *)
Definition event := (stream * str)%type.

(** [print(s)] writes [s] and a line break to [sys.stdout]: the chunk
    written when the stream takes it.  [print_io] below is the call
    with the exception it raises when the stream does not. *)
Definition print (s : str) : event := (Stdout, s ++ [NL]).


(** ** [find_rust_files] *)

(** [root_dir.rglob] with the glob [*.rs], over the entries [tree] that the walk
    below the root visits: those whose last component matches the glob
    (POSIX matching, which is case-sensitive). *)
Definition rglob_rs (tree : list Path) : list Path :=
  filter (fun p => endswith (name p) (py ".rs")) tree.

(** A file the loop of [find_rust_files] skips. *)
Definition test_file (file : Path) : bool :=
  str_in (py "test") (name file) || str_in (py "tests") (parent file).

Fixpoint find_rust_files_loop (entries rust_files : list Path) : list Path :=
  match entries with
  | [] => rust_files
  | file :: rest =>
      if test_file file
      then find_rust_files_loop rest rust_files
      else find_rust_files_loop rest (rust_files ++ [file])
  end.

Definition find_rust_files (tree : list Path) : list Path :=
  find_rust_files_loop (rglob_rs tree) [].

(** ** [analyze_file] *)

Definition occurrence := (nat * str)%type.

(** The dict [issues], with its keys in insertion order. *)
Record Issues := mkIssues {
  unwrap : list occurrence;
  expect : list occurrence;
  panic : list occurrence
}.

Definition no_issues : Issues := mkIssues [] [] [].

(** [line.strip().startswith] of two slashes: a comment line. *)
Definition comment_line (line : str) : bool := startswith (strip line) (py "//").

(** One iteration of the loop over [enumerate(lines)]. *)
Definition analyze_line (i : nat) (line : str) (st : bool * Issues)
  : bool * Issues :=
  let in_test_block := if test_pattern line then true else fst st in
  let issues := snd st in
  if in_test_block && negb (comment_line line)
  then (in_test_block, issues)
  else
    let occ := (i + 1, strip line) in
    let issues :=
      if unwrap_pattern line
      then mkIssues (unwrap issues ++ [occ]) (expect issues) (panic issues)
      else issues in
    let issues :=
      match expect_pattern line with
      | Some _ => mkIssues (unwrap issues) (expect issues ++ [occ]) (panic issues)
      | None => issues
      end in
    let issues :=
      if panic_pattern line
      then mkIssues (unwrap issues) (expect issues) (panic issues ++ [occ])
      else issues in
    (in_test_block, issues).

Fixpoint analyze_lines (i : nat) (lines : list str) (st : bool * Issues)
  : bool * Issues :=
  match lines with
  | [] => st
  | line :: rest => analyze_lines (S i) rest (analyze_line i line st)
  end.

(** [analyze_file(file_path)], given what reading the file gives: the
    returned [issues] and what is printed, when [print] does not raise
    ([analyze_file_io] below has the exception). *)
Definition analyze_file (file_path : Path) (r : read_result)
  : Issues * list event :=
  match r with
  | ReadOk lines => (snd (analyze_lines 0 lines (false, no_issues)), [])
  | ReadErr e =>
      (no_issues,
       [print (py "Error reading " ++ path_str file_path ++ py ": " ++ e)])
  end.

(** ** The suggestion engine *)

Definition LOCK_CALL : str := py "lock().unwrap()".
Definition PARSE_CALL : str := py "parse().unwrap()".
Definition TO_STRING_CALL : str := py "to_string().unwrap()".

Definition LOCK_FIX : str :=
  py ".map_err(|e| StorageError::LockError(e.to_string()))?".
Definition PARSE_FIX : str :=
  py ".map_err(|e| ValidationError::ParseError(e.to_string()))?".
Definition CONVERSION_FIX : str :=
  py ".map_err(|_| ValidationError::ConversionError)?".
Definition PROPAGATE : str := py "?".

Definition suggest_unwrap_fix (line : str) : str :=
  if str_in LOCK_CALL line then replace line UNWRAP_CALL LOCK_FIX
  else if str_in PARSE_CALL line then replace line UNWRAP_CALL PARSE_FIX
  else if str_in TO_STRING_CALL line then
    replace line UNWRAP_CALL CONVERSION_FIX
  else replace line UNWRAP_CALL PROPAGATE.

Definition expect_call (error_msg : str) : str :=
  EXPECT_OPEN ++ error_msg ++ MSG_CLOSE.

Definition ok_or_else_call (error_msg : str) : str :=
  py ".ok_or_else(|| ValidationError::InvalidInput(" ++ [QUOTE] ++
  error_msg ++ [QUOTE] ++ py ".to_string()))?".

Definition suggest_expect_fix (line : str) : str :=
  match expect_pattern line with
  | Some error_msg =>
      replace line (expect_call error_msg) (ok_or_else_call error_msg)
  | None => line
  end.

Definition return_internal_error (msg : str) : str :=
  py "return Err(SupernovaError::InternalError(" ++ [QUOTE] ++ msg ++
  [QUOTE] ++ py ".to_string()));".

Definition GENERIC_MSG : str := py "Unexpected error".

Definition suggest_panic_fix (line : str) : str :=
  if str_in PANIC_OPEN line then
    match search_quoted PANIC_MSG_OPEN line with
    | Some msg => return_internal_error msg
    | None => return_internal_error GENERIC_MSG
    end
  else line.

(** ** [generate_fix_suggestions] *)

Inductive issue_kind := Unwrap | Expect | Panic.

(** [issues[k]] *)
Definition occurrences (k : issue_kind) (issues : Issues) : list occurrence :=
  match k with
  | Unwrap => unwrap issues
  | Expect => expect issues
  | Panic => panic issues
  end.

(** Whether the signature of kind [k] matches [line]. *)
Definition signature (k : issue_kind) (line : str) : bool :=
  match k with
  | Unwrap => unwrap_pattern line
  | Expect => match expect_pattern line with Some _ => true | None => false end
  | Panic => panic_pattern line
  end.

(** The key of [issues] a kind stands for. *)
Definition kind_str (k : issue_kind) : str :=
  match k with
  | Unwrap => py "unwrap"
  | Expect => py "expect"
  | Panic => py "panic"
  end.

Definition kind_eqb (a b : issue_kind) : bool :=
  match a, b with
  | Unwrap, Unwrap | Expect, Expect | Panic, Panic => true
  | _, _ => false
  end.

(** One of the dicts appended to [suggestions]. *)
Record Suggestion := mkSuggestion {
  issue_file : str;
  issue_line : nat;
  issue_type : issue_kind;
  issue_original : str;
  issue_suggestion : str
}.

Definition suggest (k : issue_kind) (line_content : str) : str :=
  match k with
  | Unwrap => suggest_unwrap_fix line_content
  | Expect => suggest_expect_fix line_content
  | Panic => suggest_panic_fix line_content
  end.

Definition suggestions_of (file_path : Path) (k : issue_kind)
  (occurrences : list occurrence) : list Suggestion :=
  map (fun o => mkSuggestion (path_str file_path) (fst o) k (snd o)
                  (suggest k (snd o))) occurrences.

(** The loop runs over [issues.items()]: the three keys in the order
    they were inserted. *)
Definition generate_fix_suggestions (file_path : Path) (issues : Issues)
  : list Suggestion :=
  suggestions_of file_path Unwrap (unwrap issues) ++
  suggestions_of file_path Expect (expect issues) ++
  suggestions_of file_path Panic (panic issues).

(** ** [generate_fix_script] *)

(** The dict [issues_by_file]: its items in insertion order. *)
Definition Dict := list (str * list Suggestion).

(** [if file not in d: d[file] = []] followed by [d[file].append(v)] *)
Fixpoint dict_append (d : Dict) (file : str) (v : Suggestion) : Dict :=
  match d with
  | [] => [(file, [v])]
  | (k, vs) :: d' =>
      if str_eqb k file then (k, vs ++ [v]) :: d'
      else (k, vs) :: dict_append d' file v
  end.

(** What is written to the script for one issue of [file]. *)
Definition fix_script_entry (file : str) (issue : Suggestion) : str :=
  match issue_type issue with
  | Unwrap =>
      py "# Line " ++ str_of_nat (issue_line issue) ++
      py ": Replace unwrap()" ++ [NL] ++
      py "# sed -i '' 's/\.unwrap()/\?/g' " ++ file ++ [NL]
  | Expect =>
      py "# Line " ++ str_of_nat (issue_line issue) ++
      py ": Replace expect()" ++ [NL] ++
      py "# Manual fix needed" ++ [NL]
  | Panic =>
      py "# Line " ++ str_of_nat (issue_line issue) ++
      py ": Replace panic!" ++ [NL] ++
      py "# Manual fix needed" ++ [NL]
  end.

Definition fix_script_header : str :=
  py "#!/bin/bash" ++ [NL] ++
  py "# Script to apply unwrap fixes" ++ [NL] ++
  py "# Review each change before running!" ++ [NL] ++ [NL].

Definition fix_script_file (item : str * list Suggestion) : str :=
  [NL] ++ py "# Fixes for " ++ fst item ++ [NL] ++
  flat_map (fix_script_entry (fst item)) (snd item).

(** [generate_fix_script(issues_by_file)]: the text written to
    [apply_unwrap_fixes.sh] and what is printed, when every write is
    taken.  [generate_fix_script_io] below is the function with its
    exceptions, which leave a part of this text in the file. *)
Definition generate_fix_script (issues_by_file : Dict) : str * list event :=
  (fix_script_header ++ flat_map fix_script_file issues_by_file,
   [print ([NL] ++ py "Fix script generated: apply_unwrap_fixes.sh");
    print (py "Review and edit the script before running!")]).

(** ** [generate_report] *)

(** The locals the first loop of [generate_report] updates, and what it
    has printed. *)
Record Audit := mkAudit {
  all_issues : list Suggestion;
  total_unwraps : nat;
  total_expects : nat;
  total_panics : nat;
  printed : list event
}.

(** [any(issues.values())] *)
Definition any_issues (issues : Issues) : bool :=
  match unwrap issues, expect issues, panic issues with
  | [], [], [] => false
  | _, _, _ => true
  end.

Definition audit_file (fs : Path -> read_result) (file_path : Path)
  (a : Audit) : Audit :=
  let (issues, out) := analyze_file file_path (fs file_path) in
  if any_issues issues then
    mkAudit (all_issues a ++ generate_fix_suggestions file_path issues)
            (total_unwraps a + length (unwrap issues))
            (total_expects a + length (expect issues))
            (total_panics a + length (panic issues))
            (printed a ++ out)
  else
    mkAudit (all_issues a) (total_unwraps a) (total_expects a)
            (total_panics a) (printed a ++ out).

Fixpoint audit_files (fs : Path -> read_result) (rust_files : list Path)
  (a : Audit) : Audit :=
  match rust_files with
  | [] => a
  | file_path :: rest => audit_files fs rest (audit_file fs file_path a)
  end.

Definition audit (fs : Path -> read_result) (rust_files : list Path) : Audit :=
  audit_files fs rust_files (mkAudit [] 0 0 0 []).

Definition group_by_file (issues : list Suggestion) : Dict :=
  fold_left (fun d issue => dict_append d (issue_file issue) issue) issues [].

(** [sorted(issues_by_file.items())].  The keys of a dict are distinct,
    so the order of the pairs is the order of their keys. *)
Fixpoint insert_item (x : str * list Suggestion) (l : Dict) : Dict :=
  match l with
  | [] => [x]
  | y :: l' =>
      if str_leb (fst x) (fst y) then x :: l else y :: insert_item x l'
  end.

Fixpoint sorted (l : Dict) : Dict :=
  match l with
  | [] => []
  | x :: l' => insert_item x (sorted l')
  end.

Definition rule (c : string) : str := repeat (hd 0%N (py c)) 80.

Definition summary (a : Audit) : list event :=
  [print ([NL] ++ rule "=");
   print (py "UNWRAP/PANIC AUDIT REPORT");
   print (rule "=");
   print (py "Total unwrap() calls: " ++ str_of_nat (total_unwraps a));
   print (py "Total expect() calls: " ++ str_of_nat (total_expects a));
   print (py "Total panic! calls: " ++ str_of_nat (total_panics a));
   print (py "TOTAL ISSUES: " ++
          str_of_nat (total_unwraps a + total_expects a + total_panics a));
   print (rule "=")].

Definition detail_issue (issue : Suggestion) : list event :=
  [print (py "  Line " ++ str_of_nat (issue_line issue) ++ py " (" ++
          kind_str (issue_type issue) ++ py "):");
   print (py "    Original: " ++ issue_original issue);
   print (py "    Fix:      " ++ issue_suggestion issue)].

Definition detail_file (item : str * list Suggestion) : list event :=
  print ([NL] ++ fst item ++ py ":") :: flat_map detail_issue (snd item).

(** The sections of the detailed report, in the order printed. *)
Definition detail_sections (fs : Path -> read_result) (tree : list Path)
  : Dict :=
  sorted (group_by_file (all_issues (audit fs (find_rust_files tree)))).

Record Run := mkRun {
  output : list event;
  script : str
}.

(** [generate_report()] on the tree [tree] under the root, with [fs]
    what reading each file gives: all that a run prints and writes when
    nothing raises ([generate_report_io] below has the exceptions). *)
Definition generate_report (fs : Path -> read_result) (tree : list Path)
  : Run :=
  let rust_files := find_rust_files tree in
  let a := audit fs rust_files in
  let issues_by_file := group_by_file (all_issues a) in
  let (text, out) := generate_fix_script issues_by_file in
  mkRun
    ([print (py "Analyzing " ++ str_of_nat (length rust_files) ++
             py " Rust files...")] ++
     printed a ++
     summary a ++
     [print ([NL] ++ py "DETAILED FIXES NEEDED:"); print (rule "-")] ++
     flat_map detail_file (sorted issues_by_file) ++
     out)
    text.

(** ** The run with its exceptions

    [print] and the writes to the script encode their text, and text
    that the stream cannot encode raises [UnicodeEncodeError]: nothing
    of it is written.  Opening the script can fail too.  The program
    catches none of these (the [print] of [analyze_file] stands in the
    [except] branch, outside the [try]), so the first one ends the run.
    The definitions above give what is printed and written when nothing
    raises; the ones below run the same code with these exceptions. *)

(** What the run has written: the chunks sent to the streams, and the
    text of [apply_unwrap_fixes.sh] once it has been opened. *)
Record World := mkWorld { w_out : list event; w_script : option str }.

(** A computation that may write and may raise: [None] is an exception
    on its way up, with the world as it was when it was raised. *)
Definition IO (A : Type) : Type := World -> option A * World.

Definition ret {A : Type} (a : A) : IO A := fun w => (Some a, w).

Definition bind {A B : Type} (m : IO A) (k : A -> IO B) : IO B :=
  fun w =>
    match m w with
    | (Some a, w') => k a w'
    | (None, w') => (None, w')
    end.

Notation "x <- m ;; k" := (bind m (fun x => k))
  (at level 61, m at next level, right associativity).
Notation "m ;; k" := (bind m (fun _ => k))
  (at level 61, right associativity).

(** [for x in l: body(x)] *)
Fixpoint for_each {A : Type} (l : list A) (body : A -> IO unit) : IO unit :=
  match l with
  | [] => ret tt
  | x :: rest => body x ;; for_each rest body
  end.

(** The accumulators of the first loop of [generate_report]:
    [all_issues] and the three totals. *)
Definition Totals : Type := (list Suggestion * nat * nat * nat)%type.

Definition totals_of (a : Audit) : Totals :=
  (all_issues a, total_unwraps a, total_expects a, total_panics a).

Section IO.

(** Whether [sys.stdout] takes a text (it can encode it), and whether
    the script file does; whether the script can be opened for
    writing. *)
Variable stdout_accepts : str -> bool.
Variable script_accepts : str -> bool.
Variable script_opens : bool.

(** [print(s)] *)
Definition print_io (s : str) : IO unit :=
  fun w =>
    if stdout_accepts (s ++ [NL])
    then (Some tt, mkWorld (w_out w ++ [print s]) (w_script w))
    else (None, w).

(** [open("apply_unwrap_fixes.sh", "w")] *)
Definition open_script : IO unit :=
  fun w =>
    if script_opens then (Some tt, mkWorld (w_out w) (Some []))
    else (None, w).

(** [f.write(s)] *)
Definition write_io (s : str) : IO unit :=
  fun w =>
    if script_accepts s
    then (Some tt,
          mkWorld (w_out w) (option_map (fun text => text ++ s) (w_script w)))
    else (None, w).

(** [analyze_file(file_path)] *)
Definition analyze_file_io (file_path : Path) (r : read_result) : IO Issues :=
  match r with
  | ReadOk lines => ret (snd (analyze_lines 0 lines (false, no_issues)))
  | ReadErr e =>
      print_io (py "Error reading " ++ path_str file_path ++ py ": " ++ e) ;;
      ret no_issues
  end.

(** The body of the loop over [rust_files], after [analyze_file]. *)
Definition audit_step (file_path : Path) (issues : Issues) (st : Totals)
  : Totals :=
  match st with
  | (all_issues, total_unwraps, total_expects, total_panics) =>
      if any_issues issues then
        (all_issues ++ generate_fix_suggestions file_path issues,
         total_unwraps + length (unwrap issues),
         total_expects + length (expect issues),
         total_panics + length (panic issues))
      else st
  end.

Fixpoint audit_files_io (fs : Path -> read_result) (rust_files : list Path)
  (st : Totals) : IO Totals :=
  match rust_files with
  | [] => ret st
  | file_path :: rest =>
      issues <- analyze_file_io file_path (fs file_path) ;;
      audit_files_io fs rest (audit_step file_path issues st)
  end.

(** [generate_fix_script(issues_by_file)] *)
Definition generate_fix_script_io (issues_by_file : Dict) : IO unit :=
  open_script ;;
  write_io (py "#!/bin/bash" ++ [NL]) ;;
  write_io (py "# Script to apply unwrap fixes" ++ [NL]) ;;
  write_io (py "# Review each change before running!" ++ [NL] ++ [NL]) ;;
  for_each issues_by_file
    (fun item =>
       write_io ([NL] ++ py "# Fixes for " ++ fst item ++ [NL]) ;;
       for_each (snd item)
         (fun issue =>
            match issue_type issue with
            | Unwrap =>
                write_io (py "# Line " ++ str_of_nat (issue_line issue) ++
                          py ": Replace unwrap()" ++ [NL]) ;;
                write_io (py "# sed -i '' 's/\.unwrap()/\?/g' " ++ fst item ++ [NL])
            | Expect =>
                write_io (py "# Line " ++ str_of_nat (issue_line issue) ++
                          py ": Replace expect()" ++ [NL]) ;;
                write_io (py "# Manual fix needed" ++ [NL])
            | Panic =>
                write_io (py "# Line " ++ str_of_nat (issue_line issue) ++
                          py ": Replace panic!" ++ [NL]) ;;
                write_io (py "# Manual fix needed" ++ [NL])
            end)) ;;
  print_io ([NL] ++ py "Fix script generated: apply_unwrap_fixes.sh") ;;
  print_io (py "Review and edit the script before running!").

(** [generate_report()] *)
Definition generate_report_io (fs : Path -> read_result) (tree : list Path)
  : IO unit :=
  let rust_files := find_rust_files tree in
  print_io (py "Analyzing " ++ str_of_nat (length rust_files) ++
            py " Rust files...") ;;
  st <- audit_files_io fs rust_files ([], 0, 0, 0) ;;
  match st with
  | (all_issues, total_unwraps, total_expects, total_panics) =>
      print_io ([NL] ++ rule "=") ;;
      print_io (py "UNWRAP/PANIC AUDIT REPORT") ;;
      print_io (rule "=") ;;
      print_io (py "Total unwrap() calls: " ++ str_of_nat total_unwraps) ;;
      print_io (py "Total expect() calls: " ++ str_of_nat total_expects) ;;
      print_io (py "Total panic! calls: " ++ str_of_nat total_panics) ;;
      print_io (py "TOTAL ISSUES: " ++
                str_of_nat (total_unwraps + total_expects + total_panics)) ;;
      print_io (rule "=") ;;
      let issues_by_file := group_by_file all_issues in
      print_io ([NL] ++ py "DETAILED FIXES NEEDED:") ;;
      print_io (rule "-") ;;
      for_each (sorted issues_by_file)
        (fun item =>
           print_io ([NL] ++ fst item ++ py ":") ;;
           for_each (snd item)
             (fun issue =>
                print_io (py "  Line " ++ str_of_nat (issue_line issue) ++
                          py " (" ++ kind_str (issue_type issue) ++ py "):") ;;
                print_io (py "    Original: " ++ issue_original issue) ;;
                print_io (py "    Fix:      " ++ issue_suggestion issue))) ;;
      generate_fix_script_io issues_by_file
  end.

(** What the run does to the world, one write at a time. *)
Inductive effect :=
| Emit (ev : event)
| OpenScript
| Write (chunk : str).

Definition perform (e : effect) : IO unit :=
  fun w =>
    match e with
    | Emit ev =>
        if stdout_accepts (snd ev)
        then (Some tt, mkWorld (w_out w ++ [ev]) (w_script w))
        else (None, w)
    | OpenScript => open_script w
    | Write chunk => write_io chunk w
    end.

Fixpoint perform_all (effects : list effect) : IO unit :=
  match effects with
  | [] => ret tt
  | e :: rest => perform e ;; perform_all rest
  end.

(** [m] does [effects] in this order, as far as none raises, and then
    returns [v]. *)
Definition realises {A : Type} (m : IO A) (effects : list effect) (v : A)
  : Prop :=
  forall w, m w = (perform_all effects ;; ret v) w.

End IO.

(** The chunks of a list that are written before the first one that is
    not accepted, and whether all are. *)
Fixpoint accepted_prefix {A : Type} (accepts : A -> bool) (chunks : list A)
  : list A * bool :=
  match chunks with
  | [] => ([], true)
  | c :: rest =>
      if accepts c
      then (c :: fst (accepted_prefix accepts rest),
            snd (accepted_prefix accepts rest))
      else ([], false)
  end.

(** The arguments of the calls of [f.write], in order. *)
Definition fix_script_entry_chunks (file : str) (issue : Suggestion)
  : list str :=
  match issue_type issue with
  | Unwrap =>
      [py "# Line " ++ str_of_nat (issue_line issue) ++
       py ": Replace unwrap()" ++ [NL];
       py "# sed -i '' 's/\.unwrap()/\?/g' " ++ file ++ [NL]]
  | Expect =>
      [py "# Line " ++ str_of_nat (issue_line issue) ++
       py ": Replace expect()" ++ [NL];
       py "# Manual fix needed" ++ [NL]]
  | Panic =>
      [py "# Line " ++ str_of_nat (issue_line issue) ++
       py ": Replace panic!" ++ [NL];
       py "# Manual fix needed" ++ [NL]]
  end.

Definition fix_script_file_chunks (item : str * list Suggestion) : list str :=
  ([NL] ++ py "# Fixes for " ++ fst item ++ [NL]) ::
  flat_map (fix_script_entry_chunks (fst item)) (snd item).

Definition fix_script_chunks (issues_by_file : Dict) : list str :=
  [py "#!/bin/bash" ++ [NL];
   py "# Script to apply unwrap fixes" ++ [NL];
   py "# Review each change before running!" ++ [NL] ++ [NL]] ++
  flat_map fix_script_file_chunks issues_by_file.

(** What [generate_report] prints before it writes the script. *)
Definition report_prints (fs : Path -> read_result) (tree : list Path)
  : list event :=
  let rust_files := find_rust_files tree in
  let a := audit fs rust_files in
  [print (py "Analyzing " ++ str_of_nat (length rust_files) ++
          py " Rust files...")] ++
  printed a ++
  summary a ++
  [print ([NL] ++ py "DETAILED FIXES NEEDED:"); print (rule "-")] ++
  flat_map detail_file (sorted (group_by_file (all_issues a))).

(** The writes of a whole run, in order. *)
Definition run_effects (fs : Path -> read_result) (tree : list Path)
  : list effect :=
  let d := group_by_file (all_issues (audit fs (find_rust_files tree))) in
  map Emit (report_prints fs tree) ++
  [OpenScript] ++
  map Write (fix_script_chunks d) ++
  map Emit (snd (generate_fix_script d)).

(** The world before the run. *)
Definition start : World := mkWorld [] None.

(** ** Notions the properties are stated with *)

(** [p] occurs in [s]: exact, case-sensitive substring matching. *)
Definition substring (p s : str) : Prop := exists a b, s = a ++ p ++ b.

(** [line] holds, after [pre], the literal [opening], a message [m]
    without a double quote, the closing double quote and parenthesis. *)
Definition quoted_at (opening line pre m post : str) : Prop :=
  line = pre ++ opening ++ m ++ MSG_CLOSE ++ post /\ ~ In QUOTE m.

(** ... and no such text starts further left in [line]. *)
Definition leftmost_quoted (opening line pre m post : str) : Prop :=
  quoted_at opening line pre m post /\
  forall pre' m' post',
    quoted_at opening line pre' m' post' -> length pre <= length pre'.

(** What one line adds to [issues[k]], with [b] the flag before it. *)
Definition line_found (k : issue_kind) (i : nat) (b : bool) (line : str)
  : list occurrence :=
  if (b || test_pattern line) && negb (comment_line line) then []
  else if signature k line then [(i + 1, strip line)] else [].

Fixpoint found (k : issue_kind) (i : nat) (b : bool) (lines : list str)
  : list occurrence :=
  match lines with
  | [] => []
  | line :: rest =>
      line_found k i b line ++ found k (S i) (b || test_pattern line) rest
  end.

Definition keys (d : Dict) : list str := map fst d.

(** [d.get(file, [])] *)
Fixpoint dict_get (d : Dict) (file : str) : list Suggestion :=
  match d with
  | [] => []
  | (k, vs) :: d' => if str_eqb k file then vs else dict_get d' file
  end.

Definition path_lt (a b : str) : Prop := str_ltb a b = true.

(** The FileReport of a file. *)
Definition file_report (fs : Path -> read_result) (file_path : Path) : Issues :=
  fst (analyze_file file_path (fs file_path)).

(** The running total of a kind. *)
Definition total (k : issue_kind) (a : Audit) : nat :=
  match k with
  | Unwrap => total_unwraps a
  | Expect => total_expects a
  | Panic => total_panics a
  end.

(** The number of Findings of a kind in a list of them. *)
Definition count_kind (k : issue_kind) (l : list Suggestion) : nat :=
  length (filter (fun issue => kind_eqb (issue_type issue) k) l).

(** The lines of the summary that carry the totals, for given counts. *)
Definition totals_lines (u e p : nat) : list event :=
  [print (py "Total unwrap() calls: " ++ str_of_nat u);
   print (py "Total expect() calls: " ++ str_of_nat e);
   print (py "Total panic! calls: " ++ str_of_nat p);
   print (py "TOTAL ISSUES: " ++ str_of_nat (u + e + p))].

(** A stream with the UTF-8 codec and strict errors, as [sys.stdout] and
    [open] have it in a UTF-8 locale: it takes every text but one with
    a surrogate code point (U+D800 to U+DFFF), and that is how a path
    with bytes that are not UTF-8 reads as a [str]. *)
Definition utf8_accepts (s : str) : bool :=
  forallb (fun c => (c <? 55296)%N || (57343 <? c)%N) s.

(** A file whose name holds the byte 0xFF, read as U+DCFF. *)
Definition undecodable_path : Path :=
  mkPath (py "src/" ++ [56575%N] ++ py ".rs") (py "src")
         ([56575%N] ++ py ".rs").

(** An example tree: [src/b.rs] aborts on its first line and unwraps on
    its second, [lib/a.rs] unwraps once. *)
Definition example_b : Path := mkPath (py "src/b.rs") (py "src") (py "b.rs").
Definition example_a : Path := mkPath (py "lib/a.rs") (py "lib") (py "a.rs").

Definition example_fs (p : Path) : read_result :=
  if str_eqb (path_str p) (py "src/b.rs") then
    ReadOk [py "if bad { panic!(" ++ [QUOTE] ++ py "bad state" ++ MSG_CLOSE ++
            py "; }" ++ [NL];
            py "let v = data.lock().unwrap();" ++ [NL]]
  else ReadOk [py "let n = s.parse().unwrap();" ++ [NL]].

(** The lines of a text, as a shell reads them: [text.split] on the line
    break. *)
Fixpoint split_lines (text : str) : list str :=
  match text with
  | [] => [[]]
  | c :: t =>
      if (c =? NL)%N then [] :: split_lines t
      else match split_lines t with
           | l :: ls => (c :: l) :: ls
           | [] => [[c]]
           end
  end.

(** A line of the script that runs nothing: blank, or a comment. *)
Definition disabled (line : str) : bool :=
  match line with
  | [] => true
  | c :: _ => (c =? HASH)%N
  end.

(** A text made of whole lines, each of them disabled. *)
Inductive disabled_text : str -> Prop :=
| disabled_nil : disabled_text []
| disabled_line (l t : str) :
    ~ In NL l -> disabled l = true -> disabled_text t ->
    disabled_text (l ++ NL :: t).

(** A file whose name holds a line break. *)
Definition injected_path : Path :=
  mkPath (py "src/x" ++ [NL] ++ py "touch pwned.rs") (py "src")
         (py "x" ++ [NL] ++ py "touch pwned.rs").

(** [enumerate(lines, i)] *)
Fixpoint enumerate (i : nat) (lines : list str) : list (nat * str) :=
  match lines with
  | [] => []
  | line :: rest => (i, line) :: enumerate (S i) rest
  end.

(** The Finding a line gives, from its index and itself. *)
Definition finding_of (il : nat * str) : occurrence :=
  (fst il + 1, strip (snd il)).

(** * Properties *)

Arguments py : simpl never.
Arguments MSG_CLOSE : simpl never.
Arguments UNWRAP_CALL : simpl never.
Arguments EXPECT_OPEN : simpl never.
Arguments PANIC_OPEN : simpl never.
Arguments PANIC_MSG_OPEN : simpl never.
Arguments LOCK_CALL : simpl never.
Arguments PARSE_CALL : simpl never.
Arguments TO_STRING_CALL : simpl never.
Arguments LOCK_FIX : simpl never.
Arguments PARSE_FIX : simpl never.
Arguments CONVERSION_FIX : simpl never.
Arguments PROPAGATE : simpl never.
Arguments GENERIC_MSG : simpl never.

(** ** Examples *)

Example replace_ex :
  replace (py "a.b.c") (py ".") (py "::") = py "a::b::c".
Proof. reflexivity. Qed.

Example strip_ex : strip (py "   let x = 1;  ") ++ [NL] = py "let x = 1;" ++ [NL].
Proof. reflexivity. Qed.

Example str_of_nat_ex : str_of_nat 120 = py "120" /\ str_of_nat 0 = py "0".
Proof. split; reflexivity. Qed.

(** ** Strings *)

Lemma startswith_iff (s p : str) :
  startswith s p = true <-> exists t, s = p ++ t.
Proof.
  revert s; induction p as [|a p IH]; intros s; simpl.
  - split; [intros _; now exists s | reflexivity].
  - destruct s as [|b s].
    + split; [discriminate | intros [t H]; discriminate].
    + rewrite andb_true_iff, N.eqb_eq, IH. split.
      * intros [-> [t ->]]. now exists t.
      * intros [t H]. injection H as -> ->. split; [reflexivity | now exists t].
Qed.

Lemma startswith_app (p t : str) : startswith (p ++ t) p = true.
Proof. apply startswith_iff. now exists t. Qed.

Lemma str_in_iff (p s : str) : str_in p s = true <-> substring p s.
Proof.
  unfold substring. induction s as [|c s IH]; simpl.
  - rewrite orb_false_r, startswith_iff. split.
    + intros [t H]. now exists [], t.
    + intros [[|x a] [b H]]; [now exists b | discriminate].
  - rewrite orb_true_iff, startswith_iff, IH. split.
    + intros [[t H] | [a [b H]]].
      * now exists [], t.
      * exists (c :: a), b. now rewrite H.
    + intros [[|x a] [b H]]; simpl in H.
      * left. now exists b.
      * right. injection H as -> ->. now exists a, b.
Qed.

Lemma str_in_false_iff (p s : str) : str_in p s = false <-> ~ substring p s.
Proof.
  rewrite <- str_in_iff. destruct (str_in p s); split; intros H; auto.
  - discriminate.
  - now contradiction H.
Qed.

Lemma str_eqb_eq (s t : str) : str_eqb s t = true <-> s = t.
Proof.
  revert t; induction s as [|a s IH]; intros [|b t]; simpl;
    try (split; [discriminate | discriminate]); try tauto.
  rewrite andb_true_iff, N.eqb_eq, IH. split.
  - now intros [-> ->].
  - intros H; injection H; auto.
Qed.

Lemma str_eqb_refl (s : str) : str_eqb s s = true.
Proof. now apply str_eqb_eq. Qed.

Lemma str_eqb_neq (s t : str) : str_eqb s t = false <-> s <> t.
Proof.
  rewrite <- str_eqb_eq. destruct (str_eqb s t); split; intros H; auto.
  - discriminate.
  - now contradiction H.
Qed.

Lemma skipn_length_app (a b : str) : skipn (length a) (a ++ b) = b.
Proof. induction a; simpl; auto. Qed.

(** An occurrence of [p] that starts [k] characters into [s]. *)
Lemma startswith_skipn (s p : str) (k : nat) :
  k <= length s ->
  startswith (skipn k s) p = true <->
  exists a b, s = a ++ p ++ b /\ length a = k.
Proof.
  intros Hk. rewrite startswith_iff. split.
  - intros [t H]. exists (firstn k s), t. split.
    + now rewrite <- H, firstn_skipn.
    + apply firstn_length_le, Hk.
  - intros [a [b [-> <-]]]. exists b. apply skipn_length_app.
Qed.

(** *** [replace] *)

Lemma replace_from_skip (old new : str) (k : nat) (s : str) :
  replace_from old new k s = replace_from old new 0 (skipn k s).
Proof.
  revert k; induction s as [|c s IH]; intros [|k]; try reflexivity.
  simpl. apply IH.
Qed.

Lemma replace_from_occurrence (old new post : str) :
  old <> [] ->
  replace_from old new 0 (old ++ post) = new ++ replace_from old new 0 post.
Proof.
  destruct old as [|c o]; [congruence | intros _].
  change ((c :: o) ++ post) with (c :: (o ++ post)).
  cbn [replace_from].
  change (c :: (o ++ post)) with ((c :: o) ++ post).
  rewrite startswith_app, replace_from_skip.
  replace (length (c :: o) - 1) with (length o) by (simpl; lia).
  now rewrite skipn_length_app.
Qed.

Lemma replace_from_before (old new pre rest : str) :
  (forall k, k < length pre ->
             startswith (skipn k (pre ++ rest)) old = false) ->
  replace_from old new 0 (pre ++ rest) = pre ++ replace_from old new 0 rest.
Proof.
  induction pre as [|c pre IH]; intros H; [reflexivity |].
  change ((c :: pre) ++ rest) with (c :: (pre ++ rest)).
  cbn [replace_from].
  specialize (H 0 ltac:(simpl; lia)) as H0. simpl in H0.
  change (c :: (pre ++ rest)) with ((c :: pre) ++ rest) at 1.
  simpl app at 1.
  rewrite H0. simpl. f_equal. apply IH.
  intros k Hk. apply (H (S k)). simpl; lia.
Qed.

Lemma replace_from_absent (old new s : str) :
  str_in old s = false -> replace_from old new 0 s = s.
Proof.
  induction s as [|c s IH]; [reflexivity |].
  simpl. intros H. apply orb_false_iff in H as [H1 H2].
  simpl in H1. rewrite H1. f_equal. now apply IH.
Qed.

(** [replace] rewrites the leftmost occurrence and goes on after it. *)
Lemma replace_leftmost (old new pre post : str) :
  old <> [] ->
  (forall pre' post', pre ++ old ++ post = pre' ++ old ++ post' ->
                      length pre <= length pre') ->
  replace (pre ++ old ++ post) old new = pre ++ new ++ replace post old new.
Proof.
  intros Hne Hfirst. unfold replace. destruct old as [|c o] eqn:E; [congruence |].
  rewrite <- E in *. rewrite replace_from_before.
  - now rewrite replace_from_occurrence.
  - intros k Hk.
    destruct (startswith (skipn k (pre ++ old ++ post)) old) eqn:S; [|reflexivity].
    apply startswith_skipn in S.
    + destruct S as [a [b [Hab Hlen]]]. apply Hfirst in Hab. lia.
    + rewrite length_app. lia.
Qed.

Lemma replace_absent (s old new : str) :
  old <> [] -> ~ substring old s -> replace s old new = s.
Proof.
  intros Hne H. unfold replace. destruct old; [congruence |].
  apply replace_from_absent. now apply str_in_false_iff.
Qed.

(** When [old] occurs once only, nothing else changes. *)
Lemma replace_unique (old new pre post : str) :
  old <> [] ->
  (forall pre' post', pre ++ old ++ post = pre' ++ old ++ post' -> pre' = pre) ->
  replace (pre ++ old ++ post) old new = pre ++ new ++ post.
Proof.
  intros Hne Huniq. rewrite replace_leftmost; auto.
  - rewrite (replace_absent post); auto.
    intros [a [b ->]].
    specialize (Huniq (pre ++ old ++ a) b).
    rewrite <- !app_assoc in Huniq. specialize (Huniq eq_refl).
    apply (f_equal (@length char)) in Huniq. rewrite !length_app in Huniq.
    destruct old; [congruence | simpl in Huniq; lia].
  - intros pre' post' H. apply Huniq in H. subst. lia.
Qed.

(** *** The patterns with a quoted message *)

Lemma msg_run_no_quote (s : str) : ~ In QUOTE (msg_run s).
Proof.
  induction s as [|c s IH]; simpl; [tauto |].
  destruct (c =? QUOTE)%N eqn:E; simpl; [tauto |].
  apply N.eqb_neq in E. intros [H | H]; [congruence | tauto].
Qed.

Lemma msg_run_split (s : str) : s = msg_run s ++ skipn (length (msg_run s)) s.
Proof.
  induction s as [|c s IH]; simpl; [reflexivity |].
  destruct (c =? QUOTE)%N; simpl; [reflexivity | now f_equal].
Qed.

Lemma msg_run_app (m r : str) : ~ In QUOTE m -> msg_run (m ++ QUOTE :: r) = m.
Proof.
  induction m as [|c m IH]; simpl; intros H.
  - reflexivity.
  - destruct (c =? QUOTE)%N eqn:E.
    + apply N.eqb_eq in E. tauto.
    + f_equal. apply IH. tauto.
Qed.

Lemma match_quoted_iff (opening s m : str) :
  match_quoted opening s = Some m <-> exists post, quoted_at opening s [] m post.
Proof.
  unfold match_quoted, quoted_at. split.
  - destruct (startswith s opening) eqn:S; [|discriminate].
    apply startswith_iff in S as [t ->]. rewrite skipn_length_app.
    destruct (startswith (skipn (length (msg_run t)) t) MSG_CLOSE) eqn:S2;
      [|discriminate].
    intros [= <-]. apply startswith_iff in S2 as [post H].
    exists post. split; [|apply msg_run_no_quote].
    rewrite app_nil_l. f_equal. rewrite <- H. apply msg_run_split.
  - intros [post [-> Hq]]. rewrite app_nil_l.
    rewrite startswith_app, skipn_length_app.
    change (MSG_CLOSE ++ post) with (QUOTE :: (py ")" ++ post)).
    rewrite (msg_run_app _ _ Hq), skipn_length_app.
    change (QUOTE :: (py ")" ++ post)) with (MSG_CLOSE ++ post).
    now rewrite startswith_app.
Qed.

Lemma quoted_at_cons (opening s pre m post : str) (c : char) :
  quoted_at opening s pre m post ->
  quoted_at opening (c :: s) (c :: pre) m post.
Proof. intros [-> H]. now split. Qed.

Lemma search_quoted_leftmost (opening line pre m post : str) :
  leftmost_quoted opening line pre m post ->
  search_quoted opening line = Some m.
Proof.
  revert line; induction pre as [|c pre IH]; intros line [Hq Hleft].
  - assert (M : match_quoted opening line = Some m)
      by (apply match_quoted_iff; now exists post).
    destruct line; simpl; now rewrite M.
  - destruct Hq as [-> Hq]. cbn [app search_quoted].
    destruct (match_quoted opening (c :: pre ++ opening ++ m ++ MSG_CLOSE ++ post))
      as [m'|] eqn:M.
    + apply match_quoted_iff in M as [post' M].
      apply Hleft in M. simpl in M. lia.
    + apply IH. split; [now split |].
      intros pre' m' post' H.
      apply (quoted_at_cons _ _ _ _ _ c), Hleft in H. simpl in H. lia.
Qed.

Lemma search_quoted_Some (opening line m : str) :
  search_quoted opening line = Some m ->
  exists pre post, leftmost_quoted opening line pre m post.
Proof.
  induction line as [|c line IH]; simpl.
  - destruct (match_quoted opening []) as [m'|] eqn:M; [|discriminate].
    intros [= ->]. apply match_quoted_iff in M as [post M].
    exists [], post. split; [exact M | intros; simpl; lia].
  - destruct (match_quoted opening (c :: line)) as [m'|] eqn:M.
    + intros [= ->]. apply match_quoted_iff in M as [post M].
      exists [], post. split; [exact M | intros; simpl; lia].
    + intros H. destruct (IH H) as [pre [post [Hq Hleft]]].
      exists (c :: pre), post. split; [now apply quoted_at_cons |].
      intros [|c' pre'] m' post' [E Hq'].
      * assert (X : match_quoted opening (c :: line) = Some m')
          by (apply match_quoted_iff; exists post'; now split).
        congruence.
      * simpl in E. injection E as _ E.
        assert (L : length pre <= length pre') by (apply (Hleft pre' m' post'); now split).
        simpl; lia.
Qed.

Lemma search_quoted_None (opening line : str) :
  search_quoted opening line = None <->
  forall pre m post, ~ quoted_at opening line pre m post.
Proof.
  split.
  - intros H pre. revert line H. induction pre as [|c pre IH]; intros line H m post Hq.
    + assert (M : match_quoted opening line = Some m)
        by (apply match_quoted_iff; now exists post).
      destruct line; simpl in H; rewrite M in H; discriminate.
    + destruct Hq as [-> Hq]. simpl in H.
      destruct (match_quoted opening _); [discriminate |].
      apply (IH _ H m post). now split.
  - intros H. destruct (search_quoted opening line) as [m|] eqn:E; [|reflexivity].
    apply search_quoted_Some in E as [pre [post [Hq _]]]. now apply H in Hq.
Qed.

(** Checking on a concrete line that an occurrence is the leftmost or
    the only one. *)
Lemma leftmost_quoted_check (opening line pre m post : str) :
  quoted_at opening line pre m post ->
  forallb (fun k => match match_quoted opening (skipn k line) with
                    | Some _ => false
                    | None => true
                    end) (seq 0 (length pre)) = true ->
  leftmost_quoted opening line pre m post.
Proof.
  intros Hq Hall. split; [exact Hq |].
  intros pre' m' post' [E Hq'].
  destruct (le_lt_dec (length pre) (length pre')) as [L | L]; [exact L | exfalso].
  rewrite forallb_forall in Hall.
  specialize (Hall (length pre')). rewrite in_seq in Hall.
  specialize (Hall ltac:(lia)).
  assert (M : match_quoted opening (skipn (length pre') line) = Some m').
  { apply match_quoted_iff. exists post'. split; [|exact Hq'].
    rewrite E at 1. now rewrite skipn_length_app. }
  now rewrite M in Hall.
Qed.

Lemma unique_occurrence_check (p line pre post : str) :
  line = pre ++ p ++ post ->
  forallb (fun k => Nat.eqb k (length pre) || negb (startswith (skipn k line) p))
          (seq 0 (S (length line))) = true ->
  forall pre' post', line = pre' ++ p ++ post' -> pre' = pre.
Proof.
  intros E Hall pre' post' E'.
  rewrite forallb_forall in Hall.
  specialize (Hall (length pre')). rewrite in_seq in Hall.
  assert (L : length pre' <= length line)
    by (rewrite E', length_app; lia).
  specialize (Hall ltac:(lia)).
  assert (S : startswith (skipn (length pre') line) p = true).
  { rewrite E' at 1. rewrite skipn_length_app. apply startswith_app. }
  rewrite S, orb_false_r in Hall. apply Nat.eqb_eq in Hall.
  assert (F : forall a b : str, firstn (length a) (a ++ b) = a).
  { intros a b. now rewrite firstn_app, Nat.sub_diag, firstn_all, firstn_O, app_nil_r. }
  rewrite <- (F pre' (p ++ post')), <- E', Hall, E. apply F.
Qed.

(** ** The suggestion engine *)

Lemma UNWRAP_CALL_nonempty : UNWRAP_CALL <> [].
Proof. discriminate. Qed.

Lemma suggest_unwrap_fix_choice (line : str) :
  exists new,
    suggest_unwrap_fix line = replace line UNWRAP_CALL new /\
    (substring LOCK_CALL line -> new = LOCK_FIX) /\
    (~ substring LOCK_CALL line -> substring PARSE_CALL line ->
     new = PARSE_FIX) /\
    (~ substring LOCK_CALL line -> ~ substring PARSE_CALL line ->
     substring TO_STRING_CALL line -> new = CONVERSION_FIX) /\
    (~ substring LOCK_CALL line -> ~ substring PARSE_CALL line ->
     ~ substring TO_STRING_CALL line -> new = PROPAGATE) /\
    (forall pre post,
        line = pre ++ UNWRAP_CALL ++ post ->
        (forall pre' post', line = pre' ++ UNWRAP_CALL ++ post' ->
                            length pre <= length pre') ->
        suggest_unwrap_fix line = pre ++ new ++ replace post UNWRAP_CALL new) /\
    (forall pre post,
        line = pre ++ UNWRAP_CALL ++ post ->
        (forall pre' post', line = pre' ++ UNWRAP_CALL ++ post' -> pre' = pre) ->
        suggest_unwrap_fix line = pre ++ new ++ post).
Proof.
  assert (R : exists new,
             suggest_unwrap_fix line = replace line UNWRAP_CALL new /\
             (substring LOCK_CALL line -> new = LOCK_FIX) /\
             (~ substring LOCK_CALL line -> substring PARSE_CALL line ->
              new = PARSE_FIX) /\
             (~ substring LOCK_CALL line -> ~ substring PARSE_CALL line ->
              substring TO_STRING_CALL line -> new = CONVERSION_FIX) /\
             (~ substring LOCK_CALL line -> ~ substring PARSE_CALL line ->
              ~ substring TO_STRING_CALL line -> new = PROPAGATE)).
  { unfold suggest_unwrap_fix.
    destruct (str_in LOCK_CALL line) eqn:L.
    { apply str_in_iff in L. exists LOCK_FIX. split; [reflexivity | tauto]. }
    apply str_in_false_iff in L.
    destruct (str_in PARSE_CALL line) eqn:P.
    { apply str_in_iff in P. exists PARSE_FIX. split; [reflexivity | tauto]. }
    apply str_in_false_iff in P.
    destruct (str_in TO_STRING_CALL line) eqn:T.
    { apply str_in_iff in T. exists CONVERSION_FIX.
      split; [reflexivity | tauto]. }
    apply str_in_false_iff in T.
    exists PROPAGATE. split; [reflexivity | tauto]. }
  destruct R as (new & E & R1 & R2 & R3 & R4). exists new.
  repeat (split; [assumption |]).
  split; intros pre post -> H; rewrite E.
  - apply replace_leftmost; [apply UNWRAP_CALL_nonempty | exact H].
  - apply replace_unique; [apply UNWRAP_CALL_nonempty | exact H].
Qed.

(** C4.  For an unwrap Finding the engine applies one rule, the first
    that matches.  When the line holds [lock().unwrap()] the text put in
    place of [.unwrap()] is the error-mapped propagation into
    [StorageError::LockError]; else, when it holds [parse().unwrap()],
    the one into [ValidationError::ParseError]; else, when it holds
    [to_string().unwrap()], the one into
    [ValidationError::ConversionError]; else the bare propagation
    operator [?].  The text before the leftmost [.unwrap()] is
    untouched, and on a line with exactly one [.unwrap()] nothing else
    is altered.  The texts are written out as the source has them. *)
Theorem suggest_unwrap_fix_rules (line : str) :
  exists new,
    suggest_unwrap_fix line = replace line (py ".unwrap()") new /\
    (substring (py "lock().unwrap()") line ->
     new = py ".map_err(|e| StorageError::LockError(e.to_string()))?") /\
    (~ substring (py "lock().unwrap()") line ->
     substring (py "parse().unwrap()") line ->
     new = py ".map_err(|e| ValidationError::ParseError(e.to_string()))?") /\
    (~ substring (py "lock().unwrap()") line ->
     ~ substring (py "parse().unwrap()") line ->
     substring (py "to_string().unwrap()") line ->
     new = py ".map_err(|_| ValidationError::ConversionError)?") /\
    (~ substring (py "lock().unwrap()") line ->
     ~ substring (py "parse().unwrap()") line ->
     ~ substring (py "to_string().unwrap()") line ->
     new = py "?") /\
    (forall pre post,
        line = pre ++ py ".unwrap()" ++ post ->
        (forall pre' post', line = pre' ++ py ".unwrap()" ++ post' ->
                            length pre <= length pre') ->
        suggest_unwrap_fix line =
        pre ++ new ++ replace post (py ".unwrap()") new) /\
    (forall pre post,
        line = pre ++ py ".unwrap()" ++ post ->
        (forall pre' post', line = pre' ++ py ".unwrap()" ++ post' ->
                            pre' = pre) ->
        suggest_unwrap_fix line = pre ++ new ++ post).
Proof. exact (suggest_unwrap_fix_choice line). Qed.

Lemma suggest_unwrap_fix_rules_witness :
  suggest_unwrap_fix (py "let v = data.lock().unwrap();") =
    py "let v = data.lock().map_err(|e| StorageError::LockError(e.to_string()))?;" /\
  suggest_unwrap_fix (py "let n = s.parse().unwrap();") =
    py "let n = s.parse().map_err(|e| ValidationError::ParseError(e.to_string()))?;" /\
  suggest_unwrap_fix (py "let t = x.to_string().unwrap();") =
    py "let t = x.to_string().map_err(|_| ValidationError::ConversionError)?;" /\
  suggest_unwrap_fix (py "let v = compute().unwrap() + 1;") =
    py "let v = compute()? + 1;".
Proof.
  split; [|split; [|split]].
  - destruct (suggest_unwrap_fix_rules (py "let v = data.lock().unwrap();"))
      as (new & _ & Hlock & _ & _ & _ & _ & Huniq).
    rewrite (Huniq (py "let v = data.lock()") (py ";")).
    + rewrite Hlock; [reflexivity | apply str_in_iff; reflexivity].
    + reflexivity.
    + apply (unique_occurrence_check UNWRAP_CALL _ (py "let v = data.lock()") (py ";"));
        reflexivity.
  - destruct (suggest_unwrap_fix_rules (py "let n = s.parse().unwrap();"))
      as (new & _ & _ & Hparse & _ & _ & _ & Huniq).
    rewrite (Huniq (py "let n = s.parse()") (py ";")).
    + rewrite Hparse; [reflexivity | apply str_in_false_iff; reflexivity
                       | apply str_in_iff; reflexivity].
    + reflexivity.
    + apply (unique_occurrence_check UNWRAP_CALL _ (py "let n = s.parse()") (py ";"));
        reflexivity.
  - destruct (suggest_unwrap_fix_rules (py "let t = x.to_string().unwrap();"))
      as (new & _ & _ & _ & Hconv & _ & _ & Huniq).
    rewrite (Huniq (py "let t = x.to_string()") (py ";")).
    + rewrite Hconv; [reflexivity | apply str_in_false_iff; reflexivity
                      | apply str_in_false_iff; reflexivity
                      | apply str_in_iff; reflexivity].
    + reflexivity.
    + apply (unique_occurrence_check UNWRAP_CALL _ (py "let t = x.to_string()") (py ";"));
        reflexivity.
  - destruct (suggest_unwrap_fix_rules (py "let v = compute().unwrap() + 1;"))
      as (new & _ & _ & _ & _ & Hbare & _ & Huniq).
    rewrite (Huniq (py "let v = compute()") (py " + 1;")).
    + rewrite Hbare; [reflexivity | apply str_in_false_iff; reflexivity ..].
    + reflexivity.
    + apply (unique_occurrence_check UNWRAP_CALL _ (py "let v = compute()") (py " + 1;"));
        reflexivity.
Defined.

Lemma expect_call_nonempty (m : str) : expect_call m <> [].
Proof. unfold expect_call, EXPECT_OPEN, py. simpl. discriminate. Qed.

Lemma expect_call_at (pre m post : str) :
  pre ++ EXPECT_OPEN ++ m ++ MSG_CLOSE ++ post = pre ++ expect_call m ++ post.
Proof. unfold expect_call. now rewrite <- !app_assoc. Qed.

Lemma suggest_expect_fix_quoted (line pre m post : str) :
  leftmost_quoted EXPECT_OPEN line pre m post ->
  suggest_expect_fix line =
    pre ++ ok_or_else_call m ++
    replace post (expect_call m) (ok_or_else_call m) /\
  (~ substring (expect_call m) post ->
   suggest_expect_fix line = pre ++ ok_or_else_call m ++ post).
Proof.
  intros H. pose proof (search_quoted_leftmost _ _ _ _ _ H) as S.
  unfold suggest_expect_fix, expect_pattern. rewrite S.
  destruct H as [[-> Hq] Hleft].
  assert (R : replace (pre ++ EXPECT_OPEN ++ m ++ MSG_CLOSE ++ post)
                (expect_call m) (ok_or_else_call m) =
              pre ++ ok_or_else_call m ++
              replace post (expect_call m) (ok_or_else_call m)).
  { rewrite expect_call_at. apply replace_leftmost.
    - apply expect_call_nonempty.
    - intros pre' post' E. apply (Hleft pre' m post').
      split; [|exact Hq]. now rewrite !expect_call_at. }
  rewrite R. split; [reflexivity |].
  intros N. rewrite (replace_absent post); auto using expect_call_nonempty.
Qed.

(** C5, as the code has it.  Let the line hold, after [pre], the call
    [.expect(] with the message [m] in double quotes (code point 34,
    [q] below) and [)], and let no such call start further left.  Then
    the engine puts in place of every occurrence of that call the
    option-to-result conversion [.ok_or_else(|| ...)] that carries [m],
    in double quotes and turned into a string, into
    [ValidationError::InvalidInput], followed by the propagation
    operator [?].  The text before the call is unchanged, and so is the
    rest of the line when it does not hold the same call again.  The
    texts are written out as the source has them. *)
Theorem suggest_expect_fix_leftmost (line pre m post : str) :
  let q := 34%N in
  let call := fun m : str => py ".expect(" ++ [q] ++ m ++ [q] ++ py ")" in
  let conversion :=
    py ".ok_or_else(|| ValidationError::InvalidInput(" ++ [q] ++ m ++ [q] ++
    py ".to_string()))?" in
  line = pre ++ call m ++ post ->
  ~ In q m ->
  (forall pre' m' post',
      ~ In q m' -> line = pre' ++ call m' ++ post' ->
      length pre <= length pre') ->
  suggest_expect_fix line =
    pre ++ conversion ++ replace post (call m) conversion /\
  (~ substring (call m) post ->
   suggest_expect_fix line = pre ++ conversion ++ post).
Proof.
  intros q call conversion E Hq Hleft.
  apply (suggest_expect_fix_quoted line pre m post).
  split; [split; [|exact Hq] |].
  - rewrite expect_call_at. exact E.
  - intros pre' m' post' [E' Hq']. apply (Hleft pre' m' post' Hq').
    rewrite expect_call_at in E'. exact E'.
Qed.

Lemma suggest_expect_fix_leftmost_witness :
  suggest_expect_fix
    (py "let v = x.expect(" ++ [34%N] ++ py "must exist" ++ [34%N] ++ py ");") =
  py "let v = x.ok_or_else(|| ValidationError::InvalidInput(" ++ [34%N] ++
  py "must exist" ++ [34%N] ++ py ".to_string()))?;".
Proof.
  apply (suggest_expect_fix_leftmost
           (py "let v = x.expect(" ++ [34%N] ++ py "must exist" ++ [34%N] ++ py ");")
           (py "let v = x") (py "must exist") (py ";")).
  - reflexivity.
  - cbv. intuition discriminate.
  - assert (L : leftmost_quoted EXPECT_OPEN
                  (py "let v = x.expect(" ++ [34%N] ++ py "must exist" ++ [34%N] ++
                   py ");")
                  (py "let v = x") (py "must exist") (py ";")).
    { apply leftmost_quoted_check; [split |]; try reflexivity.
      cbv. intuition discriminate. }
    intros pre' m' post' Hq' E'. apply (proj2 L pre' m' post').
    split; [rewrite expect_call_at; exact E' | exact Hq'].
  - apply str_in_false_iff. reflexivity.
Defined.

(** C5 as stated fails when the line holds a second annotated
    expectation with another message: the line below holds the call
    carrying [y], yet that call is left as it is and the one carrying
    [x] is replaced. *)
Lemma suggest_expect_fix_other_message :
  let q := 34%N in
  let line := py "a.expect(" ++ [q] ++ py "x" ++ [q] ++ py ").expect(" ++ [q] ++
              py "y" ++ [q] ++ py ")" in
  line = (py "a.expect(" ++ [q] ++ py "x" ++ [q] ++ py ")") ++
         (py ".expect(" ++ [q] ++ py "y" ++ [q] ++ py ")") ++ [] /\
  ~ In q (py "y") /\
  suggest_expect_fix line <>
    (py "a.expect(" ++ [q] ++ py "x" ++ [q] ++ py ")") ++
    (py ".ok_or_else(|| ValidationError::InvalidInput(" ++ [q] ++ py "y" ++ [q] ++
     py ".to_string()))?") ++ [] /\
  suggest_expect_fix line =
    py "a.ok_or_else(|| ValidationError::InvalidInput(" ++ [q] ++ py "x" ++ [q] ++
    py ".to_string()))?.expect(" ++ [q] ++ py "y" ++ [q] ++ py ")".
Proof.
  split; [reflexivity |].
  split; [cbv; intuition discriminate |].
  split; [vm_compute; discriminate | vm_compute; reflexivity].
Qed.

Lemma panic_call_at (pre m post : str) :
  pre ++ PANIC_MSG_OPEN ++ m ++ MSG_CLOSE ++ post =
  pre ++ (PANIC_MSG_OPEN ++ m ++ MSG_CLOSE) ++ post.
Proof. now rewrite <- !app_assoc. Qed.

Lemma suggest_panic_fix_quoted (line : str) :
  substring PANIC_OPEN line ->
  (forall pre m post,
      leftmost_quoted PANIC_MSG_OPEN line pre m post ->
      suggest_panic_fix line = return_internal_error m) /\
  ((forall pre m post, ~ quoted_at PANIC_MSG_OPEN line pre m post) ->
   suggest_panic_fix line = return_internal_error GENERIC_MSG).
Proof.
  intros H. apply str_in_iff in H. unfold suggest_panic_fix. rewrite H. split.
  - intros pre m post L. now rewrite (search_quoted_leftmost _ _ _ _ _ L).
  - intros N. apply search_quoted_None in N. now rewrite N.
Qed.

(** C6.  For a panic Finding (the line holds [panic!(]).  When the line
    holds an abort invocation with a string literal, that is [panic!(]
    followed by a message [m] in double quotes (code point 34, [q]
    below) and [)], the engine returns the whole statement
    [return Err(SupernovaError::InternalError(...));] carrying [m], in
    double quotes and turned into a string, for the leftmost such
    invocation.  When the line holds none, the statement carries the
    fixed message [Unexpected error].  The texts are written out as the
    source has them. *)
Theorem suggest_panic_fix_message (line : str) :
  let q := 34%N in
  let call := fun m : str => py "panic!(" ++ [q] ++ m ++ [q] ++ py ")" in
  let statement := fun m : str =>
    py "return Err(SupernovaError::InternalError(" ++ [q] ++ m ++ [q] ++
    py ".to_string()));" in
  substring (py "panic!(") line ->
  (forall pre m post,
      line = pre ++ call m ++ post ->
      ~ In q m ->
      (forall pre' m' post',
          ~ In q m' -> line = pre' ++ call m' ++ post' ->
          length pre <= length pre') ->
      suggest_panic_fix line = statement m) /\
  ((forall pre m post, ~ In q m -> line <> pre ++ call m ++ post) ->
   suggest_panic_fix line = statement (py "Unexpected error")).
Proof.
  intros q call statement H.
  destruct (suggest_panic_fix_quoted line H) as [L N]. split.
  - intros pre m post E Hq Hleft. apply (L pre m post).
    split; [split; [|exact Hq] |].
    + rewrite panic_call_at. exact E.
    + intros pre' m' post' [E' Hq']. apply (Hleft pre' m' post' Hq').
      rewrite panic_call_at in E'. exact E'.
  - intros No. apply N. intros pre m post [E Hq].
    apply (No pre m post Hq). rewrite panic_call_at in E. exact E.
Qed.

Lemma suggest_panic_fix_message_witness :
  suggest_panic_fix
    (py "if bad { panic!(" ++ [34%N] ++ py "bad state" ++ [34%N] ++ py "); }") =
    py "return Err(SupernovaError::InternalError(" ++ [34%N] ++
    py "bad state" ++ [34%N] ++ py ".to_string()));" /\
  suggest_panic_fix (py "panic!()") =
    py "return Err(SupernovaError::InternalError(" ++ [34%N] ++
    py "Unexpected error" ++ [34%N] ++ py ".to_string()));".
Proof.
  split.
  - apply (proj1 (suggest_panic_fix_message
                    (py "if bad { panic!(" ++ [34%N] ++ py "bad state" ++ [34%N] ++
                     py "); }")
                    ltac:(apply str_in_iff; reflexivity))
             (py "if bad { ") (py "bad state") (py "; }")).
    + reflexivity.
    + cbv. intuition discriminate.
    + assert (L : leftmost_quoted PANIC_MSG_OPEN
                    (py "if bad { panic!(" ++ [34%N] ++ py "bad state" ++ [34%N] ++
                     py "); }")
                    (py "if bad { ") (py "bad state") (py "; }")).
      { apply leftmost_quoted_check; [split |]; try reflexivity.
        cbv. intuition discriminate. }
      intros pre' m' post' Hq' E'. apply (proj2 L pre' m' post').
      split; [rewrite panic_call_at; exact E' | exact Hq'].
  - apply (proj2 (suggest_panic_fix_message (py "panic!()")
                    ltac:(apply str_in_iff; reflexivity))).
    intros pre m post Hq E.
    assert (Q : quoted_at PANIC_MSG_OPEN (py "panic!()") pre m post)
      by (split; [rewrite panic_call_at; exact E | exact Hq]).
    revert Q. apply search_quoted_None. reflexivity.
Defined.

(** ** The line analyzer *)

Lemma analyze_line_spec (k : issue_kind) (i : nat) (line : str) (b : bool)
  (iss : Issues) :
  fst (analyze_line i line (b, iss)) = b || test_pattern line /\
  occurrences k (snd (analyze_line i line (b, iss))) =
  occurrences k iss ++ line_found k i b line.
Proof.
  unfold analyze_line, line_found. cbn [fst snd].
  replace (if test_pattern line then true else b) with (b || test_pattern line)
    by (destruct b, (test_pattern line); reflexivity).
  destruct ((b || test_pattern line) && negb (comment_line line)).
  - cbn [fst snd]. now rewrite app_nil_r.
  - cbn [fst snd]. split; [reflexivity |].
    destruct k; cbn [signature occurrences];
      destruct (unwrap_pattern line), (expect_pattern line), (panic_pattern line);
      cbn [unwrap expect panic]; now rewrite ?app_nil_r.
Qed.

Lemma analyze_lines_spec (k : issue_kind) (lines : list str) :
  forall i b iss,
    fst (analyze_lines i lines (b, iss)) = b || existsb test_pattern lines /\
    occurrences k (snd (analyze_lines i lines (b, iss))) =
    occurrences k iss ++ found k i b lines.
Proof.
  induction lines as [|line rest IH]; intros i b iss; cbn [analyze_lines found existsb].
  - now rewrite orb_false_r, app_nil_r.
  - destruct (analyze_line i line (b, iss)) as [b' iss'] eqn:E.
    destruct (analyze_line_spec k i line b iss) as [F O].
    rewrite E in F, O. cbn [fst snd] in F, O. subst b'.
    destruct (IH (S i) (b || test_pattern line) iss') as [F' O'].
    rewrite F', O', O. split; [now rewrite orb_assoc | now rewrite app_assoc].
Qed.

Lemma line_found_In (k : issue_kind) (i : nat) (b : bool) (line : str) o :
  In o (line_found k i b line) ->
  o = (i + 1, strip line) /\ signature k line = true /\
  (b || test_pattern line) && negb (comment_line line) = false.
Proof.
  unfold line_found.
  destruct ((b || test_pattern line) && negb (comment_line line)); [intros [] |].
  destruct (signature k line); [|intros []].
  intros [<- | []]. auto.
Qed.

Lemma found_range (k : issue_kind) (lines : list str) :
  forall i b o, In o (found k i b lines) ->
                i + 1 <= fst o <= i + length lines.
Proof.
  induction lines as [|line rest IH]; intros i b o; cbn [found]; [intros [] |].
  rewrite in_app_iff. intros [H | H].
  - apply line_found_In in H as [-> _]. simpl. lia.
  - apply IH in H. simpl. lia.
Qed.

Lemma filter_none {A : Type} (f : A -> bool) (l : list A) :
  (forall x, In x l -> f x = false) -> filter f l = [].
Proof.
  induction l as [|x l IH]; intros H; [reflexivity |].
  simpl. rewrite (H x (or_introl eq_refl)). apply IH.
  intros y Hy. apply H. now right.
Qed.

Lemma found_at (k : issue_kind) (lines : list str) :
  forall i b j line,
    nth_error lines j = Some line ->
    filter (fun o => fst o =? i + j + 1) (found k i b lines) =
    line_found k (i + j) (b || existsb test_pattern (firstn j lines)) line.
Proof.
  induction lines as [|l rest IH]; intros i b [|j] line Hn; try discriminate.
  - injection Hn as ->. cbn [found firstn existsb].
    rewrite orb_false_r, Nat.add_0_r, filter_app.
    rewrite (filter_none _ (found k (S i) (b || test_pattern line) rest)).
    + rewrite app_nil_r. unfold line_found.
      destruct ((b || test_pattern line) && negb (comment_line line)); [reflexivity |].
      destruct (signature k line); [|reflexivity].
      simpl. now rewrite Nat.eqb_refl.
    + intros o Ho. apply found_range in Ho. apply Nat.eqb_neq. lia.
  - simpl in Hn. cbn [found firstn existsb]. rewrite filter_app.
    rewrite (filter_none _ (line_found k i b l)).
    + replace (i + S j) with (S i + j) by lia.
      rewrite orb_assoc, <- (IH (S i) (b || test_pattern l) j line Hn).
      reflexivity.
    + intros o Ho. apply line_found_In in Ho as [-> _]. simpl.
      apply Nat.eqb_neq. lia.
Qed.

Lemma found_sorted (k : issue_kind) (lines : list str) :
  forall i b, StronglySorted lt (map fst (found k i b lines)).
Proof.
  induction lines as [|l rest IH]; intros i b; cbn [found]; [constructor |].
  unfold line_found.
  destruct ((b || test_pattern l) && negb (comment_line l)); [apply IH |].
  destruct (signature k l); [|apply IH].
  simpl. constructor; [apply IH |].
  apply Forall_forall. intros n Hn. apply in_map_iff in Hn as [o [<- Ho]].
  apply found_range in Ho. lia.
Qed.

Lemma analyze_file_found (file_path : Path) (lines : list str) (k : issue_kind) :
  occurrences k (fst (analyze_file file_path (ReadOk lines))) =
  found k 0 false lines.
Proof.
  cbn [analyze_file fst].
  destruct (analyze_lines_spec k lines 0 false no_issues) as [_ ->].
  now destruct k.
Qed.

Lemma firstn_S_nth {A : Type} (l : list A) :
  forall i x, nth_error l i = Some x -> firstn (S i) l = firstn i l ++ [x].
Proof.
  induction l as [|a l IH]; intros [|i] x H; try discriminate.
  - now injection H as ->.
  - simpl in H. rewrite firstn_cons, (IH i x H). reflexivity.
Qed.

(** The Findings of kind [k] that carry the number of a given line. *)
Lemma analyze_file_at (file_path : Path) (lines : list str) (i : nat)
  (line : str) (k : issue_kind) :
  nth_error lines i = Some line ->
  filter (fun o => fst o =? i + 1)
         (occurrences k (fst (analyze_file file_path (ReadOk lines)))) =
  if existsb test_pattern (firstn (S i) lines) && negb (comment_line line)
  then []
  else if signature k line then [(i + 1, strip line)] else [].
Proof.
  intros H. rewrite analyze_file_found.
  pose proof (found_at k lines 0 false i line H) as F.
  change (0 + i) with i in F. rewrite F.
  unfold line_found. cbn [orb].
  rewrite (firstn_S_nth lines i line H), existsb_app. cbn [existsb].
  now rewrite orb_false_r.
Qed.

(** C10.  For a line that is analysed (not skipped), and for each of the
    three kinds: the report holds exactly one Finding of that kind for
    the line, with its 1-based number and trimmed text, when the kind's
    signature matches the line, however many times, and none when it
    does not. *)
Theorem analyze_file_one_per_kind (file_path : Path) (lines : list str)
  (i : nat) (line : str) :
  nth_error lines i = Some line ->
  existsb test_pattern (firstn (S i) lines) && negb (comment_line line) = false ->
  forall k,
    filter (fun o => fst o =? i + 1)
           (occurrences k (fst (analyze_file file_path (ReadOk lines)))) =
    if signature k line then [(i + 1, strip line)] else [].
Proof.
  intros H A k. now rewrite (analyze_file_at file_path lines i line k H), A.
Qed.

(** C2.  Once a line matching the test-region marker has been read, the
    flag is set after every later iteration of the loop, and no Finding
    of any kind carries the number of a line at or after the marker that
    is not a comment line. *)
Theorem analyze_file_sticky (file_path : Path) (lines : list str) (j : nat)
  (marker : str) :
  nth_error lines j = Some marker ->
  test_pattern marker = true ->
  (forall n, j < n ->
             fst (analyze_lines 0 (firstn n lines) (false, no_issues)) = true) /\
  (forall i line k o,
      j <= i -> nth_error lines i = Some line -> comment_line line = false ->
      In o (occurrences k (fst (analyze_file file_path (ReadOk lines)))) ->
      fst o <> i + 1).
Proof.
  intros Hj Hm.
  assert (Seen : forall n, j < n -> existsb test_pattern (firstn n lines) = true).
  { intros n Hn. apply existsb_exists. exists marker. split; [|exact Hm].
    apply (nth_error_In _ j). rewrite nth_error_firstn.
    apply Nat.ltb_lt in Hn. now rewrite Hn. }
  split.
  - intros n Hn.
    destruct (analyze_lines_spec Unwrap (firstn n lines) 0 false no_issues) as [-> _].
    now rewrite Seen.
  - intros i line k o Hi Hl Hc Ho E.
    pose proof (analyze_file_at file_path lines i line k Hl) as F.
    rewrite Seen, Hc in F by lia. cbn [negb andb] in F.
    assert (I : In o (filter (fun o => fst o =? i + 1)
                        (occurrences k (fst (analyze_file file_path (ReadOk lines)))))).
    { apply filter_In. split; [exact Ho | now apply Nat.eqb_eq]. }
    rewrite F in I. destruct I.
Qed.

Lemma analyze_file_one_per_kind_witness :
  let line := py "  a.unwrap().unwrap().expect(" ++ [QUOTE] ++ py "m" ++ MSG_CLOSE ++
              py " || panic!(x)" ++ [NL] in
  let text := py "a.unwrap().unwrap().expect(" ++ [QUOTE] ++ py "m" ++ MSG_CLOSE ++
              py " || panic!(x)" in
  let issues :=
    fst (analyze_file (mkPath (py "src/a.rs") (py "src") (py "a.rs"))
           (ReadOk [line])) in
  filter (fun o => fst o =? 1) (unwrap issues) = [(1, text)] /\
  filter (fun o => fst o =? 1) (expect issues) = [(1, text)] /\
  filter (fun o => fst o =? 1) (panic issues) = [(1, text)].
Proof.
  intros line text issues.
  pose proof (analyze_file_one_per_kind
                (mkPath (py "src/a.rs") (py "src") (py "a.rs"))
                [line] 0 line eq_refl eq_refl) as H.
  split; [exact (H Unwrap) | split; [exact (H Expect) | exact (H Panic)]].
Defined.

Lemma analyze_file_sticky_witness :
  let lines := [py "#[cfg(test)]" ++ [NL]; py "  x.unwrap();" ++ [NL]] in
  fst (analyze_lines 0 (firstn 2 lines) (false, no_issues)) = true /\
  ~ In (2, py "x.unwrap();")
       (unwrap (fst (analyze_file (mkPath (py "src/a.rs") (py "src") (py "a.rs"))
                       (ReadOk lines)))).
Proof.
  intros lines.
  destruct (analyze_file_sticky
              (mkPath (py "src/a.rs") (py "src") (py "a.rs"))
              lines 0 (py "#[cfg(test)]" ++ [NL]) eq_refl eq_refl) as [F N].
  split.
  - apply F. lia.
  - intros H.
    apply (N 1 (py "  x.unwrap();" ++ [NL]) Unwrap (2, py "x.unwrap();")
             ltac:(lia) eq_refl eq_refl H).
    reflexivity.
Defined.

(** *** Trimming keeps what a signature matched *)

Lemma lstrip_keeps (a r : str) (c : char) :
  isspace c = false -> exists a', lstrip (a ++ c :: r) = a' ++ c :: r.
Proof.
  intros Hc. induction a as [|x a IH]; cbn [app lstrip].
  - rewrite Hc. now exists [].
  - destruct (isspace x); [exact IH | now exists (x :: a)].
Qed.

Lemma strip_keeps (p s : str) (c d : char) (q q' : str) :
  p = c :: q -> p = q' ++ [d] -> isspace c = false -> isspace d = false ->
  substring p s -> substring p (strip s).
Proof.
  intros Ec Ed Hc Hd [a [b ->]]. unfold strip.
  assert (L : exists a', lstrip (a ++ p ++ b) = a' ++ p ++ b).
  { rewrite Ec. apply (lstrip_keeps a (q ++ b) c Hc). }
  destruct L as [a' ->].
  assert (R : exists b', lstrip (rev (a' ++ p ++ b)) = b' ++ rev p ++ rev a').
  { rewrite !rev_app_distr, <- app_assoc, Ed, rev_app_distr.
    apply (lstrip_keeps (rev b) (rev q' ++ rev a') d Hd). }
  destruct R as [b' ->].
  exists a', (rev b').
  now rewrite !rev_app_distr, !rev_involutive, <- !app_assoc.
Qed.

Lemma quoted_at_substring (opening line pre m post : str) :
  quoted_at opening line pre m post ->
  substring (opening ++ m ++ MSG_CLOSE) line.
Proof. intros [-> _]. exists pre, post. now rewrite <- !app_assoc. Qed.

(** The trimmed text of a line that a signature matches is matched by
    that signature too: the suggestion engine finds in a Finding's text
    what the analyzer found in the line. *)
Lemma signature_strip (k : issue_kind) (line : str) :
  signature k line = true -> signature k (strip line) = true.
Proof.
  destruct k; cbn [signature].
  - unfold unwrap_pattern. rewrite !str_in_iff.
    apply (strip_keeps UNWRAP_CALL line 46%N 41%N (py "unwrap()") (py ".unwrap("));
      reflexivity.
  - unfold expect_pattern.
    destruct (search_quoted EXPECT_OPEN line) as [m|] eqn:E; [intros _ | discriminate].
    apply search_quoted_Some in E as [pre [post [Hq _]]].
    pose proof Hq as [_ Hm].
    apply quoted_at_substring in Hq.
    apply (strip_keeps _ line 46%N 41%N (py "expect(" ++ [QUOTE] ++ m ++ MSG_CLOSE)
             (EXPECT_OPEN ++ m ++ [QUOTE])) in Hq; try reflexivity.
    + destruct Hq as [a [b Hq]].
      destruct (search_quoted EXPECT_OPEN (strip line)) eqn:E'; [reflexivity |].
      exfalso. apply (proj1 (search_quoted_None _ _) E' a m b).
      split; [|exact Hm]. now rewrite Hq, <- !app_assoc.
    + unfold MSG_CLOSE, py. cbn [list_ascii_of_string map]. now rewrite <- !app_assoc.
  - unfold panic_pattern. rewrite !str_in_iff.
    apply (strip_keeps PANIC_OPEN line 112%N 40%N (py "anic!(") (py "panic!"));
      reflexivity.
Qed.

Lemma found_In (k : issue_kind) (lines : list str) :
  forall i b o, In o (found k i b lines) ->
                exists line, In line lines /\ snd o = strip line /\
                             signature k line = true.
Proof.
  induction lines as [|l rest IH]; intros i b o; cbn [found]; [intros [] |].
  rewrite in_app_iff. intros [H | H].
  - apply line_found_In in H as [-> [S _]]. exists l. simpl. auto.
  - apply IH in H as [line [I H]]. exists line. simpl. auto.
Qed.

Lemma found_nth (k : issue_kind) (lines : list str) :
  forall i b o, In o (found k i b lines) ->
                exists line, nth_error lines (fst o - i - 1) = Some line /\
                             snd o = strip line.
Proof.
  induction lines as [|l rest IH]; intros i b o; cbn [found]; [intros [] |].
  rewrite in_app_iff. intros [H | H].
  - apply line_found_In in H as [-> _]. exists l. cbn [fst snd].
    now replace (i + 1 - i - 1) with 0 by lia.
  - pose proof (found_range _ _ _ _ _ H) as R.
    apply IH in H as [line [E T]]. exists line. split; [|exact T].
    now replace (fst o - i - 1) with (S (fst o - S i - 1)) by lia.
Qed.

(** A Finding carries the 1-based number of a line of the file and the
    trimmed text of that line. *)
Lemma finding_line (file_path : Path) (lines : list str) (k : issue_kind)
  (o : occurrence) :
  In o (occurrences k (fst (analyze_file file_path (ReadOk lines)))) ->
  1 <= fst o /\
  exists line, nth_error lines (fst o - 1) = Some line /\ snd o = strip line.
Proof.
  rewrite analyze_file_found. intros H.
  pose proof (found_range _ _ _ _ _ H) as R.
  apply found_nth in H as [line [E T]].
  split; [lia |]. exists line. split; [|exact T].
  now replace (fst o - 1) with (fst o - 0 - 1) by lia.
Qed.

(** What the engine needs of the text of a Finding: an expect Finding
    has a leftmost annotated expectation, a panic Finding holds the
    opening of an abort invocation. *)
Lemma signature_engine (text : str) :
  (signature Unwrap text = true -> substring UNWRAP_CALL text) /\
  (signature Expect text = true ->
   exists pre m post, leftmost_quoted EXPECT_OPEN text pre m post) /\
  (signature Panic text = true -> substring PANIC_OPEN text).
Proof.
  cbn [signature]. unfold unwrap_pattern, panic_pattern, expect_pattern.
  rewrite !str_in_iff. split; [auto | split; [|auto]].
  destruct (search_quoted EXPECT_OPEN text) as [m|] eqn:E; [intros _ | discriminate].
  apply search_quoted_Some in E as [pre [post L]]. now exists pre, m, post.
Qed.

(** Every Finding of kind [k] has a text that the signature of [k]
    matches. *)
Lemma finding_text_matches (file_path : Path) (r : read_result)
  (k : issue_kind) (o : occurrence) :
  In o (occurrences k (fst (analyze_file file_path r))) ->
  signature k (snd o) = true.
Proof.
  destruct r as [lines | e].
  - rewrite analyze_file_found. intros H.
    apply found_In in H as [line [_ [-> S]]]. now apply signature_strip.
  - destruct k; intros [].
Qed.

(** ** The file discoverer *)

Lemma endswith_iff (s p : str) :
  endswith s p = true <-> exists stem, s = stem ++ p.
Proof.
  unfold endswith. rewrite startswith_iff. split.
  - intros [t H]. exists (rev t).
    now rewrite <- (rev_involutive s), H, rev_app_distr, rev_involutive.
  - intros [stem ->]. exists (rev stem). apply rev_app_distr.
Qed.

Lemma find_rust_files_loop_filter (entries : list Path) :
  forall rust_files,
    find_rust_files_loop entries rust_files =
    rust_files ++ filter (fun file => negb (test_file file)) entries.
Proof.
  induction entries as [|file rest IH]; intros acc; cbn [find_rust_files_loop filter].
  - now rewrite app_nil_r.
  - fold (test_file file). destruct (test_file file); cbn [negb].
    + apply IH.
    + now rewrite IH, <- app_assoc.
Qed.

(** C7.  The discoverer yields exactly the entries below the root whose
    name ends in [.rs], whose name does not hold the substring [test] and
    whose parent path does not hold the substring [tests]: only names
    with the source extension, and never an excluded file.  The tests are
    substring tests on the code points of the name and of the parent
    path, so they are exact and case-sensitive. *)
Theorem find_rust_files_spec (tree : list Path) (file : Path) :
  In file (find_rust_files tree) <->
  In file tree /\
  (exists stem, name file = stem ++ py ".rs") /\
  ~ substring (py "test") (name file) /\
  ~ substring (py "tests") (parent file).
Proof.
  unfold find_rust_files, rglob_rs.
  rewrite find_rust_files_loop_filter. cbn [app].
  rewrite !filter_In, negb_true_iff, endswith_iff.
  unfold test_file. rewrite orb_false_iff, !str_in_false_iff. tauto.
Qed.

Lemma find_rust_files_spec_witness :
  In example_b (find_rust_files [example_b; example_a]) /\
  ~ In (mkPath (py "src/contest.rs") (py "src") (py "contest.rs"))
       (find_rust_files
          [example_b; mkPath (py "src/contest.rs") (py "src") (py "contest.rs")]).
Proof.
  split.
  - apply find_rust_files_spec. split; [now left |].
    split; [now exists (py "b") |].
    split; apply str_in_false_iff; reflexivity.
  - intros H. apply find_rust_files_spec in H as (_ & _ & H & _).
    apply H. now exists (py "con"), (py ".rs").
Defined.

Example find_rust_files_case_sensitive :
  let keep := mkPath (py "src/Tests/Test_util.rs") (py "src/Tests") (py "Test_util.rs") in
  let contest := mkPath (py "src/contest.rs") (py "src") (py "contest.rs") in
  let nested := mkPath (py "src/tests/a/b.rs") (py "src/tests/a") (py "b.rs") in
  let other := mkPath (py "src/notes.txt") (py "src") (py "notes.txt") in
  find_rust_files [keep; contest; nested; other] = [keep].
Proof. reflexivity. Qed.

(** ** Ordering of paths *)

Lemma str_ltb_trans (a : str) :
  forall b c, str_ltb a b = true -> str_ltb b c = true -> str_ltb a c = true.
Proof.
  induction a as [|x a IH]; intros [|y b] [|z c]; simpl; try congruence.
  rewrite !orb_true_iff, !andb_true_iff, !N.ltb_lt, !N.eqb_eq.
  intros [H1 | [H1 H1']] [H2 | [H2 H2']].
  - left. lia.
  - left. lia.
  - left. lia.
  - right. split; [lia | eauto].
Qed.

Lemma str_ltb_trichotomy (a : str) :
  forall b, str_ltb a b = true \/ a = b \/ str_ltb b a = true.
Proof.
  induction a as [|x a IH]; intros [|y b]; simpl; auto.
  rewrite !orb_true_iff, !andb_true_iff, !N.ltb_lt, !N.eqb_eq.
  destruct (N.lt_trichotomy x y) as [H | [H | H]]; auto.
  subst y. destruct (IH b) as [H | [H | H]]; auto.
  right. left. now subst.
Qed.

Lemma str_ltb_irrefl (a : str) : str_ltb a a = false.
Proof.
  induction a as [|x a IH]; simpl; [reflexivity |].
  now rewrite N.ltb_irrefl, N.eqb_refl, IH.
Qed.

(** ** The grouping by file and its sorting *)

Lemma dict_get_append (d : Dict) (file : str) (v : Suggestion) (k : str) :
  dict_get (dict_append d file v) k =
  if str_eqb file k then dict_get d k ++ [v] else dict_get d k.
Proof.
  induction d as [|[k' vs] d IH]; cbn [dict_append dict_get].
  - now destruct (str_eqb file k).
  - destruct (str_eqb k' file) eqn:E; cbn [dict_get].
    + apply str_eqb_eq in E. subst k'. now destruct (str_eqb file k).
    + destruct (str_eqb k' k) eqn:E'; [|exact IH].
      apply str_eqb_eq in E'. subst k'.
      assert (X : str_eqb file k = false)
        by (apply str_eqb_neq; apply str_eqb_neq in E; congruence).
      now rewrite X.
Qed.

Lemma keys_append (d : Dict) (file : str) (v : Suggestion) :
  keys (dict_append d file v) =
  if existsb (fun k => str_eqb k file) (keys d) then keys d
  else keys d ++ [file].
Proof.
  induction d as [|[k vs] d IH]; cbn [dict_append keys map existsb fst];
    [reflexivity |].
  destruct (str_eqb k file); cbn [orb keys map fst]; [reflexivity |].
  fold (keys d). fold (keys (dict_append d file v)). rewrite IH.
  now destruct (existsb (fun k0 => str_eqb k0 file) (keys d)).
Qed.

Lemma keys_append_NoDup (d : Dict) (file : str) (v : Suggestion) :
  NoDup (keys d) -> NoDup (keys (dict_append d file v)).
Proof.
  intros H. rewrite keys_append.
  destruct (existsb (fun k => str_eqb k file) (keys d)) eqn:E; [exact H |].
  apply NoDup_app; [exact H | repeat constructor; intros [] |].
  intros k Hk [<- | []].
  assert (X : existsb (fun k0 => str_eqb k0 file) (keys d) = true)
    by (apply existsb_exists; exists file; split; [exact Hk | apply str_eqb_refl]).
  congruence.
Qed.

Lemma dict_append_values (d : Dict) (file : str) (v : Suggestion) :
  Permutation (flat_map snd (dict_append d file v)) (flat_map snd d ++ [v]).
Proof.
  induction d as [|[k vs] d IH]; cbn [dict_append flat_map snd app].
  - reflexivity.
  - destruct (str_eqb k file); cbn [flat_map snd].
    + rewrite <- !app_assoc. apply Permutation_app_head, Permutation_app_comm.
    + rewrite <- app_assoc. now apply Permutation_app_head.
Qed.

Lemma dict_get_In (d : Dict) (k : str) (vs : list Suggestion) :
  NoDup (keys d) -> In (k, vs) d -> dict_get d k = vs.
Proof.
  induction d as [|[k' vs'] d IH]; cbn [keys map fst dict_get]; [intros _ [] |].
  intros N [E | I].
  - injection E as -> ->. now rewrite str_eqb_refl.
  - inversion N as [|? ? Hn N']; subst.
    destruct (str_eqb k' k) eqn:E; [|now apply IH].
    apply str_eqb_eq in E. subst k'. exfalso. apply Hn.
    apply in_map_iff. now exists (k, vs).
Qed.

Lemma group_by_file_fold (issues : list Suggestion) :
  forall d,
    let d' := fold_left (fun d issue => dict_append d (issue_file issue) issue)
                        issues d in
    (NoDup (keys d) -> NoDup (keys d')) /\
    (forall k, dict_get d' k =
               dict_get d k ++
               filter (fun issue => str_eqb (issue_file issue) k) issues) /\
    Permutation (flat_map snd d') (flat_map snd d ++ issues) /\
    (forall k, In k (keys d') ->
               In k (keys d) \/ exists issue, In issue issues /\ issue_file issue = k).
Proof.
  induction issues as [|v issues IH]; intros d; cbn [fold_left filter].
  - repeat split; auto.
    + intros k. now rewrite app_nil_r.
    + now rewrite app_nil_r.
  - destruct (IH (dict_append d (issue_file v) v)) as (N & G & P & K).
    cbv zeta. repeat split.
    + intros H. now apply N, keys_append_NoDup.
    + intros k. rewrite G, dict_get_append.
      destruct (str_eqb (issue_file v) k); [now rewrite <- app_assoc | reflexivity].
    + rewrite P, dict_append_values, <- app_assoc. reflexivity.
    + intros k H. apply K in H as [H | [issue [I E]]].
      * rewrite keys_append in H.
        destruct (existsb (fun k0 => str_eqb k0 (issue_file v)) (keys d)); auto.
        apply in_app_iff in H as [H | [<- | []]]; auto.
        right. exists v. simpl. auto.
      * right. exists issue. simpl. auto.
Qed.

Lemma group_by_file_spec (issues : list Suggestion) :
  NoDup (keys (group_by_file issues)) /\
  (forall k vs, In (k, vs) (group_by_file issues) ->
                vs = filter (fun issue => str_eqb (issue_file issue) k) issues /\
                exists issue, In issue issues /\ issue_file issue = k) /\
  Permutation (flat_map snd (group_by_file issues)) issues.
Proof.
  destruct (group_by_file_fold issues []) as (N & G & P & K).
  fold (group_by_file issues) in *. cbn [keys map dict_get flat_map app] in *.
  specialize (N (NoDup_nil _)).
  split; [exact N |]. split; [|exact P].
  intros k vs I. split.
  - rewrite <- (G k). symmetry. now apply dict_get_In.
  - destruct (K k) as [[] | X]; [|exact X].
    apply in_map_iff. now exists (k, vs).
Qed.

Lemma insert_item_perm (x : str * list Suggestion) (l : Dict) :
  Permutation (insert_item x l) (x :: l).
Proof.
  induction l as [|y l IH]; cbn [insert_item]; [reflexivity |].
  destruct (str_leb (fst x) (fst y)); [reflexivity |].
  rewrite IH. apply perm_swap.
Qed.

Lemma sorted_perm (l : Dict) : Permutation (sorted l) l.
Proof.
  induction l as [|x l IH]; cbn [sorted]; [reflexivity |].
  now rewrite insert_item_perm, IH.
Qed.

Lemma insert_item_sorted (x : str * list Suggestion) (l : Dict) :
  ~ In (fst x) (keys l) ->
  StronglySorted path_lt (keys l) ->
  StronglySorted path_lt (keys (insert_item x l)).
Proof.
  induction l as [|y l IH]; cbn [insert_item keys map]; intros Hx Hs.
  - repeat constructor.
  - fold (keys l) in *. inversion Hs as [|? ? Hs' Hall]; subst.
    unfold str_leb. destruct (str_ltb (fst y) (fst x)) eqn:E; cbn [negb keys map].
    + fold (keys (insert_item x l)). constructor.
      * apply IH; [|exact Hs']. intros H. apply Hx. now right.
      * apply Forall_forall. intros k Hk.
        apply (Permutation_in _ (Permutation_map fst (insert_item_perm x l))) in Hk.
        destruct Hk as [<- | Hk]; [exact E |].
        rewrite Forall_forall in Hall. now apply Hall.
    + fold (keys l).
      assert (L : path_lt (fst x) (fst y)).
      { destruct (str_ltb_trichotomy (fst x) (fst y)) as [H | [H | H]].
        - exact H.
        - exfalso. apply Hx. left. now symmetry.
        - congruence. }
      constructor; [exact Hs |]. constructor; [exact L |].
      rewrite Forall_forall in *. intros k Hk.
      apply (str_ltb_trans _ _ _ L). now apply Hall.
Qed.

Lemma sorted_strongly (l : Dict) :
  NoDup (keys l) -> StronglySorted path_lt (keys (sorted l)).
Proof.
  induction l as [|x l IH]; cbn [sorted keys map]; intros N; [constructor |].
  inversion N as [|? ? Hn N']; subst. apply insert_item_sorted.
  - intros H. apply Hn.
    apply (Permutation_in _ (Permutation_map fst (sorted_perm l))). exact H.
  - now apply IH.
Qed.

(** ** The audit loop *)

Lemma count_kind_app (k : issue_kind) (l l' : list Suggestion) :
  count_kind k (l ++ l') = count_kind k l + count_kind k l'.
Proof. unfold count_kind. now rewrite filter_app, length_app. Qed.

Lemma count_kind_suggestions_of (k k' : issue_kind) (file_path : Path)
  (l : list occurrence) :
  count_kind k (suggestions_of file_path k' l) =
  if kind_eqb k' k then length l else 0.
Proof.
  unfold count_kind, suggestions_of.
  induction l as [|o l IH]; cbn [map filter issue_type].
  - now destruct (kind_eqb k' k).
  - destruct (kind_eqb k' k); cbn [length]; now rewrite IH.
Qed.

Lemma count_kind_suggestions (k : issue_kind) (file_path : Path) (iss : Issues) :
  count_kind k (generate_fix_suggestions file_path iss) =
  length (occurrences k iss).
Proof.
  unfold generate_fix_suggestions.
  rewrite !count_kind_app, !count_kind_suggestions_of.
  destruct k; cbn [kind_eqb occurrences]; lia.
Qed.

Lemma any_issues_false (iss : Issues) :
  any_issues iss = false -> iss = no_issues.
Proof.
  destruct iss as [[|? ?] [|? ?] [|? ?]]; cbn; intros H; try discriminate H.
  reflexivity.
Qed.

Section FileSystem.

(** What reading each file of the tree gives. *)
Variable fs : Path -> read_result.

Lemma audit_file_spec (file_path : Path) (a : Audit) :
  all_issues (audit_file fs file_path a) =
    all_issues a ++ generate_fix_suggestions file_path (file_report fs file_path) /\
  (forall k, total k (audit_file fs file_path a) =
             total k a + length (occurrences k (file_report fs file_path))) /\
  printed (audit_file fs file_path a) =
    printed a ++ snd (analyze_file file_path (fs file_path)).
Proof.
  unfold audit_file, file_report.
  destruct (analyze_file file_path (fs file_path)) as [issues out].
  cbn [fst snd]. destruct (any_issues issues) eqn:E.
  - cbn [all_issues printed]. repeat split. now intros [].
  - apply any_issues_false in E. subst issues.
    cbn [all_issues printed]. repeat split.
    + now rewrite app_nil_r.
    + intros []; cbn; lia.
Qed.

Lemma audit_files_spec (rust_files : list Path) :
  forall a,
    all_issues (audit_files fs rust_files a) =
      all_issues a ++
      flat_map (fun p => generate_fix_suggestions p (file_report fs p)) rust_files /\
    (forall k, total k (audit_files fs rust_files a) =
               total k a +
               list_sum (map (fun p => length (occurrences k (file_report fs p)))
                             rust_files)) /\
    printed (audit_files fs rust_files a) =
      printed a ++ flat_map (fun p => snd (analyze_file p (fs p))) rust_files.
Proof.
  induction rust_files as [|p rest IH]; intros a;
    cbn [audit_files flat_map map list_sum fold_right].
  - rewrite !app_nil_r. repeat split. intros k. lia.
  - destruct (IH (audit_file fs p a)) as (A & T & P).
    destruct (audit_file_spec p a) as (A' & T' & P').
    rewrite A, P, A', P', <- !app_assoc. repeat split.
    intros k. rewrite T, T'. unfold list_sum. lia.
Qed.

Lemma count_kind_all (k : issue_kind)
  (rust_files : list Path) :
  count_kind k
    (flat_map (fun p => generate_fix_suggestions p (file_report fs p)) rust_files) =
  list_sum (map (fun p => length (occurrences k (file_report fs p))) rust_files).
Proof.
  induction rust_files as [|p rest IH]; cbn [flat_map map]; [reflexivity |].
  now rewrite count_kind_app, count_kind_suggestions, IH.
Qed.

Lemma count_kind_perm (k : issue_kind) (l l' : list Suggestion) :
  Permutation l l' -> count_kind k l = count_kind k l'.
Proof.
  intros P. unfold count_kind. apply Permutation_length.
  induction P; cbn [filter].
  - reflexivity.
  - destruct (kind_eqb (issue_type x) k); auto.
  - destruct (kind_eqb (issue_type x) k), (kind_eqb (issue_type y) k);
      auto using perm_swap.
  - etransitivity; eauto.
Qed.

(** C3.  For every tree: each per-kind total equals the number of
    Findings of that kind over the FileReports of the discovered files,
    which is the number of Findings of that kind accumulated, and
    neither the grouping by file nor the detailed report drops or
    repeats a Finding; the summary
    prints these three totals and their sum as the grand total; the
    empty tree gives totals of zero and a script that holds its header
    only. *)
Theorem totals_invariant (tree : list Path) :
  let rust_files := find_rust_files tree in
  let a := audit fs rust_files in
  (forall k,
      total k a =
      list_sum (map (fun p => length (occurrences k (file_report fs p))) rust_files) /\
      total k a = count_kind k (all_issues a)) /\
  Permutation (flat_map snd (group_by_file (all_issues a))) (all_issues a) /\
  Permutation (flat_map snd (detail_sections fs tree)) (all_issues a) /\
  (exists before after,
      output (generate_report fs tree) =
      before ++
      totals_lines (count_kind Unwrap (all_issues a))
                   (count_kind Expect (all_issues a))
                   (count_kind Panic (all_issues a)) ++
      after) /\
  (exists before after,
      output (generate_report fs []) = before ++ totals_lines 0 0 0 ++ after) /\
  all_issues (audit fs (find_rust_files [])) = [] /\
  script (generate_report fs []) = fix_script_header.
Proof.
  intros rust_files a.
  destruct (audit_files_spec rust_files (mkAudit [] 0 0 0 [])) as (A & T & _).
  fold (audit fs rust_files) in A, T. fold a in A, T. cbn [all_issues app] in A.
  assert (C : forall k, total k a = count_kind k (all_issues a)).
  { intros k. rewrite A, count_kind_all, T. now destruct k. }
  split; [|split; [|split; [|split; [|split; [|split]]]]].
  - intros k. split; [|apply C]. rewrite T. now destruct k.
  - apply group_by_file_spec.
  - unfold detail_sections. fold rust_files. fold a.
    rewrite (Permutation_flat_map snd (sorted_perm _)).
    apply group_by_file_spec.
  - unfold generate_report. fold rust_files. fold a. cbn [generate_fix_script output].
    exists ([print (py "Analyzing " ++ str_of_nat (length rust_files) ++
                    py " Rust files...")] ++ printed a ++
            [print ([NL] ++ rule "="); print (py "UNWRAP/PANIC AUDIT REPORT");
             print (rule "=")]).
    eexists. rewrite <- (C Unwrap), <- (C Expect), <- (C Panic).
    unfold summary, totals_lines. cbn [total]. rewrite <- !app_assoc.
    cbn [app]. reflexivity.
  - eexists [_; _; _; _]. eexists. reflexivity.
  - reflexivity.
  - reflexivity.
Qed.

Lemma audit_files_app (before after : list Path)
  (a : Audit) :
  audit_files fs (before ++ after) a =
  audit_files fs after (audit_files fs before a).
Proof.
  revert a. induction before as [|p before IH]; intros a; [reflexivity |].
  cbn [app audit_files]. apply IH.
Qed.

(** ** The detailed report *)

Lemma suggestions_file (file_path : Path) (iss : Issues) (issue : Suggestion) :
  In issue (generate_fix_suggestions file_path iss) ->
  issue_file issue = path_str file_path /\
  issue_suggestion issue = suggest (issue_type issue) (issue_original issue) /\
  In (issue_line issue, issue_original issue) (occurrences (issue_type issue) iss).
Proof.
  unfold generate_fix_suggestions, suggestions_of.
  rewrite !in_app_iff, !in_map_iff.
  intros [[o [<- H]] | [[o [<- H]] | [o [<- H]]]]; cbn;
    now rewrite <- surjective_pairing.
Qed.

Lemma filter_all {A : Type} (f : A -> bool) (l : list A) :
  (forall x, In x l -> f x = true) -> filter f l = l.
Proof.
  induction l as [|x l IH]; intros H; [reflexivity |].
  simpl. rewrite (H x (or_introl eq_refl)). f_equal. apply IH.
  intros y Hy. apply H. now right.
Qed.

Lemma filter_suggestions (k : str)
  (rust_files : list Path) :
  NoDup (map path_str rust_files) ->
  filter (fun issue => str_eqb (issue_file issue) k)
    (flat_map (fun p => generate_fix_suggestions p (file_report fs p)) rust_files) =
  match find (fun p => str_eqb (path_str p) k) rust_files with
  | Some p => generate_fix_suggestions p (file_report fs p)
  | None => []
  end.
Proof.
  induction rust_files as [|q rest IH]; cbn [map flat_map find]; intros N;
    [reflexivity |].
  inversion N as [|? ? Hn N']; subst. rewrite filter_app, (IH N').
  destruct (str_eqb (path_str q) k) eqn:E.
  - apply str_eqb_eq in E. subst k.
    rewrite filter_all.
    + destruct (find (fun p => str_eqb (path_str p) (path_str q)) rest) as [p|] eqn:F;
        [|apply app_nil_r].
      apply find_some in F as [I F]. apply str_eqb_eq in F.
      exfalso. apply Hn. rewrite <- F. now apply in_map.
    + intros issue H. apply suggestions_file in H as [-> _]. apply str_eqb_refl.
  - rewrite filter_none; [reflexivity |].
    intros issue H. apply suggestions_file in H as [-> _]. exact E.
Qed.

Lemma filter_paths_NoDup (keep : Path -> bool) (files : list Path) :
  NoDup (map path_str files) -> NoDup (map path_str (filter keep files)).
Proof.
  induction files as [|file files IH]; cbn [map filter]; intros N; [constructor |].
  inversion N as [|? ? Hn N']; subst.
  destruct (keep file); cbn [map]; [|now apply IH].
  constructor; [|now apply IH].
  intros H. apply Hn. apply in_map_iff in H as [y [E H]].
  apply filter_In in H as [H _]. rewrite <- E. now apply in_map.
Qed.

Lemma find_rust_files_NoDup (tree : list Path) :
  NoDup (map path_str tree) -> NoDup (map path_str (find_rust_files tree)).
Proof.
  intros N. unfold find_rust_files, rglob_rs.
  rewrite find_rust_files_loop_filter. cbn [app].
  now apply filter_paths_NoDup, filter_paths_NoDup.
Qed.




End FileSystem.

(** ** The report on example trees *)

Lemma example_tree_NoDup : NoDup (map path_str [example_b; example_a]).
Proof.
  repeat constructor; cbn [map In]; [|tauto].
  intros [H | []]. discriminate H.
Defined.


(** ** The companion script *)

Lemma disabled_text_app (a b : str) :
  disabled_text a -> disabled_text b -> disabled_text (a ++ b).
Proof.
  intros Ha Hb. induction Ha as [|l t Hn Hd Ht IH]; [exact Hb |].
  rewrite <- app_assoc. cbn [app]. now constructor.
Qed.

Lemma split_lines_line (l t : str) :
  ~ In NL l -> split_lines (l ++ NL :: t) = l :: split_lines t.
Proof.
  induction l as [|c l IH]; intros Hn.
  - cbn [app split_lines]. now rewrite N.eqb_refl.
  - cbn [app split_lines].
    destruct (c =? NL)%N eqn:E.
    + apply N.eqb_eq in E. subst c. exfalso. apply Hn. now left.
    + rewrite IH; [reflexivity |]. intros H. apply Hn. now right.
Qed.

Lemma disabled_text_lines (t : str) :
  disabled_text t -> Forall (fun l => disabled l = true) (split_lines t).
Proof.
  induction 1 as [|l t Hn Hd Ht IH].
  - repeat constructor.
  - rewrite split_lines_line by exact Hn. now constructor.
Qed.

Lemma py_cons (c : ascii) (s : string) : py (String c s) = N_of_ascii c :: py s.
Proof. reflexivity. Qed.

Lemma string_of_uint_digits (u : Decimal.uint) :
  Forall (fun c => (48 <= c <= 57)%N) (py (DecimalString.NilEmpty.string_of_uint u)).
Proof.
  induction u; cbn [DecimalString.NilEmpty.string_of_uint]; [constructor | ..];
    rewrite py_cons; (constructor; [cbn; lia | assumption]).
Qed.

Lemma str_of_nat_no_NL (n : nat) : ~ In NL (str_of_nat n).
Proof.
  intros H. pose proof (string_of_uint_digits (Nat.to_uint n)) as D.
  rewrite Forall_forall in D. apply D in H. unfold NL in H. lia.
Qed.

Lemma disabled_comment (body t : str) :
  ~ In NL body -> disabled_text t ->
  disabled_text (HASH :: body ++ NL :: t).
Proof.
  intros Hn Ht. apply (disabled_line (HASH :: body) t); auto.
  intros [H | H]; [discriminate H | auto].
Qed.

Lemma not_in_app (c : char) (a b : str) :
  ~ In c a -> ~ In c b -> ~ In c (a ++ b).
Proof. rewrite in_app_iff. tauto. Qed.

Lemma py_no_NL (s : string) :
  forallb (fun c => negb (c =? NL)%N) (py s) = true -> ~ In NL (py s).
Proof.
  intros H I. rewrite forallb_forall in H. apply H in I.
  now rewrite N.eqb_refl in I.
Qed.

Ltac no_line_break :=
  repeat apply not_in_app;
  try apply str_of_nat_no_NL; try (now apply py_no_NL); try assumption.

Lemma comment_lines (a b : str) :
  ~ In NL a -> ~ In NL b ->
  disabled_text (HASH :: a ++ NL :: HASH :: b ++ [NL]).
Proof.
  intros Ha Hb. apply disabled_comment; [exact Ha |].
  apply disabled_comment; [exact Hb | constructor].
Qed.

Lemma fix_script_entry_disabled (file : str) (issue : Suggestion) :
  ~ In NL file -> disabled_text (fix_script_entry file issue).
Proof.
  intros Hf. unfold fix_script_entry.
  destruct (issue_type issue).
  - replace (_ ++ _) with
      (HASH :: (py " Line " ++ str_of_nat (issue_line issue) ++
                py ": Replace unwrap()") ++
       NL :: HASH :: (py " sed -i '' 's/\.unwrap()/\?/g' " ++ file) ++ [NL])
      by (rewrite <- !app_assoc; reflexivity).
    apply comment_lines.
    + no_line_break.
    + no_line_break.
  - replace (_ ++ _) with
      (HASH :: (py " Line " ++ str_of_nat (issue_line issue) ++
                py ": Replace expect()") ++
       NL :: HASH :: py " Manual fix needed" ++ [NL])
      by (rewrite <- !app_assoc; reflexivity).
    apply comment_lines; no_line_break.
  - replace (_ ++ _) with
      (HASH :: (py " Line " ++ str_of_nat (issue_line issue) ++
                py ": Replace panic!") ++
       NL :: HASH :: py " Manual fix needed" ++ [NL])
      by (rewrite <- !app_assoc; reflexivity).
    apply comment_lines; no_line_break.
Qed.

Lemma fix_script_header_disabled : disabled_text fix_script_header.
Proof.
  unfold fix_script_header.
  apply (disabled_line (py "#!/bin/bash")); [now apply py_no_NL | reflexivity |].
  apply (disabled_line (py "# Script to apply unwrap fixes"));
    [now apply py_no_NL | reflexivity |].
  apply (disabled_line (py "# Review each change before running!"));
    [now apply py_no_NL | reflexivity |].
  apply (disabled_line [] []); [intros [] | reflexivity | constructor].
Qed.

Lemma fix_script_file_disabled (item : str * list Suggestion) :
  ~ In NL (fst item) -> disabled_text (fix_script_file item).
Proof.
  intros Hf. unfold fix_script_file.
  apply (disabled_line [] _); [intros [] | reflexivity |].
  replace (py "# Fixes for " ++ fst item ++ [NL] ++ _) with
    ((py "# Fixes for " ++ fst item) ++
     NL :: flat_map (fix_script_entry (fst item)) (snd item))
    by (rewrite <- !app_assoc; reflexivity).
  apply disabled_line.
  - apply not_in_app; [now apply py_no_NL | exact Hf].
  - reflexivity.
  - induction (snd item) as [|issue l IH]; cbn [flat_map]; [constructor |].
    apply disabled_text_app; [now apply fix_script_entry_disabled | exact IH].
Qed.

(** When no path holds a line break, every line of the script is blank
    or a comment, and the script holds the entry of every Finding. *)
Lemma generate_fix_script_disabled (issues_by_file : Dict) :
  (forall file, In file (keys issues_by_file) -> ~ In NL file) ->
  Forall (fun l => disabled l = true)
         (split_lines (fst (generate_fix_script issues_by_file))) /\
  forall file issues issue,
    In (file, issues) issues_by_file -> In issue issues ->
    substring (fix_script_entry file issue)
              (fst (generate_fix_script issues_by_file)).
Proof.
  intros H. cbn [generate_fix_script fst]. split.
  - apply disabled_text_lines, disabled_text_app;
      [apply fix_script_header_disabled |].
    induction issues_by_file as [|item d IH]; cbn [flat_map]; [constructor |].
    apply disabled_text_app.
    + apply fix_script_file_disabled, H. now left.
    + apply IH. intros file I. apply H. now right.
  - intros file issues issue I J.
    apply in_split in I as [d1 [d2 ->]]. apply in_split in J as [l1 [l2 ->]].
    rewrite flat_map_app. cbn [flat_map]. unfold fix_script_file at 2.
    cbn [fst snd]. rewrite flat_map_app. cbn [flat_map].
    exists (fix_script_header ++ flat_map fix_script_file d1 ++
            [NL] ++ py "# Fixes for " ++ file ++ [NL] ++
            flat_map (fix_script_entry file) l1).
    exists (flat_map (fix_script_entry file) l2 ++ flat_map fix_script_file d2).
    now rewrite <- !app_assoc.
Qed.

(** C9 fails on a path that holds a line break: the path is written
    into the substitution command as it is, so the text after the line
    break is a line of the script that does not begin with the comment
    character. *)
Theorem fix_script_enabled_line :
  let run := generate_report (fun _ => ReadOk [py "a.unwrap();" ++ [NL]])
                             [injected_path] in
  find_rust_files [injected_path] = [injected_path] /\
  In (py "touch pwned.rs") (split_lines (script run)) /\
  disabled (py "touch pwned.rs") = false /\
  split_lines (script run) =
  [py "#!/bin/bash";
   py "# Script to apply unwrap fixes";
   py "# Review each change before running!";
   []; [];
   py "# Fixes for src/x";
   py "touch pwned.rs";
   py "# Line 1: Replace unwrap()";
   py "# sed -i '' 's/\.unwrap()/\?/g' src/x";
   py "touch pwned.rs";
   []].
Proof.
  repeat split. vm_compute. tauto.
Qed.


(** * Further properties of the code *)

(** ** The line analyzer *)

Lemma found_no_marker (k : issue_kind) (lines : list str) :
  forall i,
    (forall line, In line lines -> test_pattern line = false) ->
    found k i false lines =
    map finding_of (filter (fun il => signature k (snd il)) (enumerate i lines)).
Proof.
  induction lines as [|l rest IH]; intros i H; [reflexivity |].
  cbn [found enumerate filter snd]. unfold line_found.
  rewrite (H l (or_introl eq_refl)). cbn [orb andb].
  rewrite IH by (intros line I; apply H; now right).
  now destruct (signature k l).
Qed.

(** In a file without a test-region marker every line is analysed: the
    Findings of a kind are the lines its signature matches, in the order
    of the file, each with its 1-based number and its trimmed text. *)
Theorem analyze_file_no_marker (file_path : Path) (lines : list str)
  (k : issue_kind) :
  (forall line, In line lines -> test_pattern line = false) ->
  occurrences k (fst (analyze_file file_path (ReadOk lines))) =
  map finding_of (filter (fun il => signature k (snd il)) (enumerate 0 lines)).
Proof.
  intros H. rewrite analyze_file_found. now apply found_no_marker.
Qed.

Lemma analyze_file_no_marker_witness :
  unwrap (fst (analyze_file example_a
                 (ReadOk [py "  a.unwrap();" ++ [NL]; py "let x = 1;" ++ [NL];
                          py "b.unwrap()" ++ [NL]]))) =
  [(1, py "a.unwrap();"); (3, py "b.unwrap()")].
Proof.
  rewrite (analyze_file_no_marker example_a _ Unwrap); [reflexivity |].
  intros line [<- | [<- | [<- | []]]]; reflexivity.
Defined.

(** A comment line is analysed wherever it stands, also after a
    test-region marker and when it holds the marker itself: it gives one
    Finding for each kind whose signature matches it. *)
Theorem comment_line_analysed (file_path : Path) (lines : list str) (i : nat)
  (line : str) (k : issue_kind) :
  nth_error lines i = Some line ->
  comment_line line = true ->
  filter (fun o => fst o =? i + 1)
         (occurrences k (fst (analyze_file file_path (ReadOk lines)))) =
  if signature k line then [(i + 1, strip line)] else [].
Proof.
  intros H C. rewrite (analyze_file_at file_path lines i line k H), C.
  now rewrite andb_false_r.
Qed.

Lemma comment_line_analysed_witness :
  let lines := [py "#[cfg(test)]" ++ [NL]; py "  // x.unwrap()" ++ [NL]] in
  filter (fun o => fst o =? 2) (unwrap (fst (analyze_file example_a (ReadOk lines)))) =
  [(2, py "// x.unwrap()")].
Proof.
  intros lines.
  exact (comment_line_analysed example_a lines 1 (py "  // x.unwrap()" ++ [NL])
           Unwrap eq_refl eq_refl).
Defined.

Lemma found_length (k : issue_kind) (lines : list str) :
  forall i b, length (found k i b lines) <= length lines.
Proof.
  induction lines as [|l rest IH]; intros i b; cbn [found length]; [lia |].
  rewrite length_app. specialize (IH (S i) (b || test_pattern l)).
  unfold line_found.
  destruct ((b || test_pattern l) && negb (comment_line l)); [simpl; lia |].
  destruct (signature k l); simpl; lia.
Qed.

(** The Findings of one kind carry strictly ascending line numbers,
    each between 1 and the number of lines of the file, so a line is
    never reported twice for a kind and a kind has at most as many
    Findings as the file has lines; a file that cannot be read has
    none. *)
Theorem occurrences_bounds (file_path : Path) (r : read_result)
  (k : issue_kind) :
  let found_k := occurrences k (fst (analyze_file file_path r)) in
  StronglySorted lt (map fst found_k) /\
  match r with
  | ReadOk lines =>
      (forall o, In o found_k -> 1 <= fst o <= length lines) /\
      length found_k <= length lines
  | ReadErr _ => found_k = []
  end.
Proof.
  destruct r as [lines | e]; cbv zeta.
  - rewrite analyze_file_found. split; [apply found_sorted |]. split.
    + intros o H. apply found_range in H. lia.
    + apply found_length.
  - split; destruct k; constructor.
Qed.

Lemma found_app (k : issue_kind) (a c : list str) :
  forall i b,
    found k i b (a ++ c) =
    found k i b a ++ found k (i + length a) (b || existsb test_pattern a) c.
Proof.
  induction a as [|l a IH]; intros i b; cbn [app found length existsb].
  - now rewrite Nat.add_0_r, orb_false_r.
  - rewrite IH, <- app_assoc, orb_assoc.
    now replace (S i + length a) with (i + S (length a)) by lia.
Qed.

(** The Findings of a file depend only on the lines read so far: when
    lines are added at the end of a file, the Findings it had stay as
    they are and in front, and the new ones carry the numbers of added
    lines. *)
Theorem analyze_file_prefix (file_path : Path) (lines added : list str)
  (k : issue_kind) :
  exists later,
    occurrences k (fst (analyze_file file_path (ReadOk (lines ++ added)))) =
    occurrences k (fst (analyze_file file_path (ReadOk lines))) ++ later /\
    forall o, In o later -> length lines < fst o <= length lines + length added.
Proof.
  rewrite !analyze_file_found, found_app.
  eexists. split; [reflexivity |].
  intros o H. apply found_range in H. lia.
Qed.

Lemma finding_text_matches_witness :
  signature Expect (py "x.expect(" ++ [QUOTE] ++ py "m" ++ MSG_CLOSE) = true.
Proof.
  apply (finding_text_matches example_a
           (ReadOk [py "   x.expect(" ++ [QUOTE] ++ py "m" ++ MSG_CLOSE ++ py "  " ++ [NL]])
           Expect (1, py "x.expect(" ++ [QUOTE] ++ py "m" ++ MSG_CLOSE)).
  vm_compute. left. reflexivity.
Defined.

(** ** The suggestion engine *)

(** On a text that the signature of a kind does not match, the rule of
    that kind changes nothing: the suggestion is the text itself. *)
Theorem suggest_unmatched (k : issue_kind) (text : str) :
  signature k text = false -> suggest k text = text.
Proof.
  destruct k; cbn [signature suggest].
  - unfold unwrap_pattern. intros H. apply str_in_false_iff in H.
    unfold suggest_unwrap_fix.
    destruct (str_in LOCK_CALL text), (str_in PARSE_CALL text),
      (str_in TO_STRING_CALL text);
      apply replace_absent; auto using UNWRAP_CALL_nonempty.
  - unfold suggest_expect_fix.
    destruct (expect_pattern text); [discriminate | reflexivity].
  - unfold panic_pattern, suggest_panic_fix. now intros ->.
Qed.

Lemma suggest_unmatched_witness :
  suggest Unwrap (py "let v = data.lock().unwrap_or(0);") =
  py "let v = data.lock().unwrap_or(0);".
Proof. apply suggest_unmatched. reflexivity. Defined.

Lemma replace_from_agree (old new t : str) :
  replace_from old new 0 t = t \/
  exists u rest rest',
    t = u ++ old ++ rest /\ replace_from old new 0 t = u ++ new ++ rest'.
Proof.
  induction t as [|c t IH]; [now left |].
  cbn [replace_from]. destruct (startswith (c :: t) old) eqn:S.
  - right. apply startswith_iff in S as [rest E].
    exists [], rest, (replace_from old new (length old - 1) t).
    split; [exact E | reflexivity].
  - destruct IH as [E | (u & rest & rest' & E & R)].
    + left. now rewrite E.
    + right. exists (c :: u), rest, rest'. rewrite R. split; [|reflexivity].
      cbn [app]. now f_equal.
Qed.

Lemma last_of_suffix (a l n2 : str) (nl : char) :
  a ++ l = n2 ++ [nl] -> l <> [] -> In nl l.
Proof.
  intros E Hl. destruct (exists_last Hl) as [l0 [x ->]].
  rewrite app_assoc in E. apply app_inj_tail in E as [_ ->].
  apply in_app_iff. right. now left.
Qed.

(** When the text put in cannot take part in an occurrence of the text
    taken out, no occurrence is left after [replace]. *)
Lemma replace_from_clean (old new o n1 n2 : str) (c n0 nl : char) :
  old = c :: o -> new = n0 :: n1 -> new = n2 ++ [nl] ->
  ~ In n0 o -> ~ In nl old -> ~ substring old new ->
  forall s k, ~ substring old (replace_from old new k s).
Proof.
  intros Eo En0 Enl Hn0 Hnl Hnew. subst old.
  induction s as [|c' t IH]; intros k.
  - cbn [replace_from]. intros [[|x a] [b E]]; discriminate E.
  - destruct k as [|k]; cbn [replace_from]; [|apply IH].
    destruct (startswith (c' :: t) (c :: o)) eqn:S.
    + intros [a [b E]].
      apply app_eq_app in E as [l [[E1 E2] | [E1 E2]]].
      * apply app_eq_app in E2 as [l' [[E3 E4] | [E3 E4]]].
        -- destruct l as [|y l].
           ++ apply (IH (length (c :: o) - 1)). exists [], b.
              cbn [app] in *. now rewrite E4, <- E3.
           ++ apply Hnl. rewrite E3. apply in_app_iff. left.
              apply (last_of_suffix a (y :: l) n2); [|discriminate].
              now rewrite <- E1.
        -- apply Hnew. exists a, l'. now rewrite E1, E3.
      * apply (IH (length (c :: o) - 1)). now exists l, b.
    + remember (replace_from (c :: o) new 0 t) as Y eqn:HY.
      intros [[|x a] [b E]]; cbn [app] in E.
      * injection E as Ec EY. subst c'.
        destruct (replace_from_agree (c :: o) new t)
          as [A | (u & rest & rest' & Et & A)]; rewrite A in HY; subst Y.
        -- assert (X : startswith (c :: t) (c :: o) = true)
             by (apply startswith_iff; exists b; now rewrite EY).
           congruence.
        -- apply app_eq_app in EY as [l [[E1 E2] | [E1 E2]]].
           ++ assert (X : startswith (c :: t) (c :: o) = true).
              { apply startswith_iff. exists (l ++ (c :: o) ++ rest).
                rewrite Et, E1, <- app_assoc. reflexivity. }
              congruence.
           ++ destruct l as [|y l].
              ** rewrite app_nil_r in E1. subst u.
                 assert (X : startswith (c :: t) (c :: o) = true).
                 { apply startswith_iff. exists ((c :: o) ++ rest).
                   rewrite Et. reflexivity. }
                 congruence.
              ** rewrite En0 in E2. cbn [app] in E2. injection E2 as E2 _.
                 apply Hn0. rewrite E1, <- E2. apply in_app_iff. right. now left.
      * injection E as _ E. apply (IH 0). exists a, b. now rewrite <- HY.
Qed.

Lemma replace_unwrap_clean (line new n1 n2 : str) (n0 nl : char) :
  new = n0 :: n1 -> new = n2 ++ [nl] ->
  ~ In n0 (py "unwrap()") -> ~ In nl UNWRAP_CALL ->
  str_in UNWRAP_CALL new = false ->
  ~ substring UNWRAP_CALL (replace line UNWRAP_CALL new).
Proof.
  intros E0 El H0 Hl Hn.
  change (replace line UNWRAP_CALL new)
    with (replace_from UNWRAP_CALL new 0 line).
  apply (replace_from_clean UNWRAP_CALL new (py "unwrap()") n1 n2 46%N n0 nl);
    auto. now apply str_in_false_iff.
Qed.

Ltac not_among := cbv; intuition discriminate.

(** The suggestion for an unwrap Finding holds no [.unwrap()] call any
    more, whichever rule applies and however many calls the line had:
    none is left over and the replacement text does not form a new
    one, so the unwrap signature does not match the suggestion. *)
Theorem suggest_unwrap_fix_clean (line : str) :
  unwrap_pattern (suggest_unwrap_fix line) = false.
Proof.
  unfold unwrap_pattern. apply str_in_false_iff.
  unfold suggest_unwrap_fix.
  destruct (str_in LOCK_CALL line); [|destruct (str_in PARSE_CALL line);
    [|destruct (str_in TO_STRING_CALL line)]].
  - apply (replace_unwrap_clean line LOCK_FIX (tl LOCK_FIX)
             (removelast LOCK_FIX) 46%N 63%N);
      try reflexivity; not_among.
  - apply (replace_unwrap_clean line PARSE_FIX (tl PARSE_FIX)
             (removelast PARSE_FIX) 46%N 63%N);
      try reflexivity; not_among.
  - apply (replace_unwrap_clean line CONVERSION_FIX (tl CONVERSION_FIX)
             (removelast CONVERSION_FIX) 46%N 63%N);
      try reflexivity; not_among.
  - apply (replace_unwrap_clean line PROPAGATE [] [] 63%N 63%N);
      try reflexivity; not_among.
Qed.

(** ** The file discoverer *)

Lemma find_rust_files_filter (tree : list Path) :
  find_rust_files tree =
  filter (fun file => endswith (name file) (py ".rs") && negb (test_file file)) tree.
Proof.
  unfold find_rust_files, rglob_rs. rewrite find_rust_files_loop_filter.
  cbn [app]. induction tree as [|p tree IH]; [reflexivity |].
  cbn [filter]. destruct (endswith (name p) (py ".rs")); cbn [filter andb].
  - destruct (negb (test_file p)); now rewrite IH.
  - exact IH.
Qed.

(** An entry is kept or dropped on its own and the order of the walk is
    kept: the discovery over a walk in two parts is the discovery over
    each part, one after the other, and discovering again among the
    discovered files drops none. *)
Theorem find_rust_files_app (walk1 walk2 : list Path) :
  find_rust_files (walk1 ++ walk2) =
    find_rust_files walk1 ++ find_rust_files walk2 /\
  find_rust_files (find_rust_files walk1) = find_rust_files walk1.
Proof.
  rewrite !find_rust_files_filter. split; [apply filter_app |].
  apply filter_all. intros p H. now apply filter_In in H.
Qed.

(** When the path of the root holds [tests], nothing is discovered: the
    parent path of every entry begins with the path of the root, so
    every entry counts as test code. *)
Theorem find_rust_files_under_tests (root : str) (tree : list Path) :
  substring (py "tests") root ->
  (forall file, In file tree -> startswith (parent file) root = true) ->
  find_rust_files tree = [].
Proof.
  intros [a [b ->]] H. rewrite find_rust_files_filter.
  apply filter_none. intros p I. apply H, startswith_iff in I as [t E].
  assert (T : str_in (py "tests") (parent p) = true).
  { apply str_in_iff. exists a, (b ++ t). now rewrite E, <- !app_assoc. }
  unfold test_file. rewrite T, orb_true_r. apply andb_false_r.
Qed.

Lemma find_rust_files_under_tests_witness :
  find_rust_files
    [mkPath (py "/home/u/tests/proj/src/lib.rs") (py "/home/u/tests/proj/src")
            (py "lib.rs");
     mkPath (py "/home/u/tests/proj/main.rs") (py "/home/u/tests/proj")
            (py "main.rs")] = [].
Proof.
  apply (find_rust_files_under_tests (py "/home/u/tests/proj")).
  - apply str_in_iff. reflexivity.
  - intros file [<- | [<- | []]]; reflexivity.
Defined.

(** ** The grouping by file *)

Lemma group_by_file_member (issues : list Suggestion) (issue : Suggestion) :
  In issue issues ->
  exists group,
    In (issue_file issue, group) (group_by_file issues) /\ In issue group.
Proof.
  intros I. destruct (group_by_file_spec issues) as (_ & G & P).
  apply (Permutation_in _ (Permutation_sym P)) in I.
  apply in_flat_map in I as [[file group] [J I]]. cbn [snd] in I.
  exists group. split; [|exact I].
  destruct (G file group J) as [E _]. rewrite E in I.
  apply filter_In in I as [_ I]. apply str_eqb_eq in I. now rewrite I.
Qed.

(** Grouping the Findings by file gives one group per file that has
    Findings and no empty group; the group of a file holds exactly the
    Findings of that file, in the order in which they were accumulated;
    every Finding is in the group of its file. *)
Theorem group_by_file_groups (issues : list Suggestion) :
  NoDup (keys (group_by_file issues)) /\
  (forall file group,
      In (file, group) (group_by_file issues) ->
      group <> [] /\
      group = filter (fun issue => str_eqb (issue_file issue) file) issues) /\
  (forall issue,
      In issue issues ->
      exists group,
        In (issue_file issue, group) (group_by_file issues) /\ In issue group).
Proof.
  destruct (group_by_file_spec issues) as (N & G & _).
  split; [exact N |]. split; [|apply group_by_file_member].
  intros file group I. destruct (G file group I) as [E [issue [J F]]].
  split; [|exact E]. intros Z. rewrite Z in E.
  assert (X : In issue (filter (fun issue => str_eqb (issue_file issue) file) issues))
    by (apply filter_In; split; [exact J | now apply str_eqb_eq]).
  rewrite <- E in X. destruct X.
Qed.

Lemma fold_block_known (block : list Suggestion) (file : str) :
  forall d,
    (forall issue, In issue block -> issue_file issue = file) ->
    In file (keys d) ->
    keys (fold_left (fun d issue => dict_append d (issue_file issue) issue) block d) =
    keys d.
Proof.
  induction block as [|v block IH]; intros d H I; [reflexivity |].
  cbn [fold_left].
  assert (K : keys (dict_append d (issue_file v) v) = keys d).
  { rewrite keys_append, (H v (or_introl eq_refl)).
    replace (existsb (fun k => str_eqb k file) (keys d)) with true; [reflexivity |].
    symmetry. apply existsb_exists. exists file. split; [exact I | apply str_eqb_refl]. }
  rewrite IH; [exact K | intros issue J; apply H; now right | now rewrite K].
Qed.

Lemma fold_block_new (block : list Suggestion) (file : str) (d : Dict) :
  (forall issue, In issue block -> issue_file issue = file) ->
  block <> [] -> ~ In file (keys d) ->
  keys (fold_left (fun d issue => dict_append d (issue_file issue) issue) block d) =
  keys d ++ [file].
Proof.
  destruct block as [|v block]; [congruence |]. intros H _ N. cbn [fold_left].
  assert (K : keys (dict_append d (issue_file v) v) = keys d ++ [file]).
  { rewrite keys_append, (H v (or_introl eq_refl)).
    replace (existsb (fun k => str_eqb k file) (keys d)) with false; [reflexivity |].
    symmetry. apply not_true_is_false. intros X.
    apply existsb_exists in X as [k [I E]]. apply str_eqb_eq in E. now subst k. }
  rewrite (fold_block_known block file);
    [exact K | intros issue J; apply H; now right |].
  rewrite K. apply in_app_iff. right. now left.
Qed.

Lemma any_issues_suggestions (file_path : Path) (iss : Issues) :
  any_issues iss = true -> generate_fix_suggestions file_path iss <> [].
Proof.
  destruct iss as [[|? ?] [|? ?] [|? ?]]; cbn; intros H; discriminate.
Qed.

(** ** The run as a whole *)

Section Run.

Variable fs : Path -> read_result.

Lemma audit_all_issues (rust_files : list Path) :
  all_issues (audit fs rust_files) =
  flat_map (fun p => generate_fix_suggestions p (file_report fs p)) rust_files.
Proof.
  unfold audit.
  now destruct (audit_files_spec fs rust_files (mkAudit [] 0 0 0 [])) as (-> & _).
Qed.

Lemma keys_of_files (rust_files : list Path) :
  forall d,
    NoDup (map path_str rust_files) ->
    (forall p, In p rust_files -> ~ In (path_str p) (keys d)) ->
    keys (fold_left (fun d issue => dict_append d (issue_file issue) issue)
            (flat_map (fun p => generate_fix_suggestions p (file_report fs p))
                      rust_files) d) =
    keys d ++
    map path_str (filter (fun p => any_issues (file_report fs p)) rust_files).
Proof.
  induction rust_files as [|p rest IH]; intros d N H; cbn [flat_map filter map].
  - now rewrite app_nil_r.
  - inversion N as [|? ? Hp N']; subst. rewrite fold_left_app.
    assert (B : forall issue,
               In issue (generate_fix_suggestions p (file_report fs p)) ->
               issue_file issue = path_str p)
      by (intros issue I; now apply suggestions_file in I).
    destruct (any_issues (file_report fs p)) eqn:A.
    + rewrite IH; [|exact N' |].
      * rewrite (fold_block_new _ (path_str p));
          [now rewrite <- app_assoc | exact B | now apply any_issues_suggestions |].
        apply H. now left.
      * intros q I. rewrite (fold_block_new _ (path_str p));
          [| exact B | now apply any_issues_suggestions | apply H; now left].
        rewrite in_app_iff. intros [J | [J | []]].
        -- apply (H q); [now right | exact J].
        -- apply Hp. rewrite J. now apply in_map.
    + apply any_issues_false in A. rewrite A. cbn [generate_fix_suggestions
        suggestions_of no_issues unwrap expect panic map app fold_left].
      apply IH; [exact N' | intros q I; apply H; now right].
Qed.

(** The grouping handed to the script lists the files in the order of
    their discovery, not sorted, and holds exactly the discovered files
    with at least one Finding: a file without Findings, or one that
    could not be read, gets no section. *)
Theorem issues_by_file_order (rust_files : list Path) :
  NoDup (map path_str rust_files) ->
  keys (group_by_file (all_issues (audit fs rust_files))) =
  map path_str (filter (fun p => any_issues (file_report fs p)) rust_files).
Proof.
  intros N. rewrite audit_all_issues. unfold group_by_file.
  rewrite keys_of_files; [reflexivity | exact N | intros p _ []].
Qed.

Lemma audit_messages (rust_files : list Path) :
  flat_map (fun p => snd (analyze_file p (fs p))) rust_files =
  flat_map (fun p => match fs p with
                     | ReadOk _ => []
                     | ReadErr e =>
                         [(Stdout, py "Error reading " ++ path_str p ++ py ": " ++
                                   e ++ [NL])]
                     end) rust_files.
Proof.
  induction rust_files as [|p rest IH]; [reflexivity |].
  cbn [flat_map]. rewrite IH. f_equal.
  destruct (fs p) as [lines | e]; [reflexivity |].
  cbn [analyze_file snd]. unfold print. now rewrite <- !app_assoc.
Qed.

Lemma grouping_keys_no_line_break (tree : list Path) :
  (forall p, In p tree -> ~ In NL (path_str p)) ->
  forall file,
    In file (keys (group_by_file (all_issues (audit fs (find_rust_files tree))))) ->
    ~ In NL file.
Proof.
  intros H file I.
  set (all := all_issues (audit fs (find_rust_files tree))) in *.
  apply in_map_iff in I as [[f group] [<- I]]. cbn [fst].
  destruct (group_by_file_spec all) as (_ & G & _).
  destruct (G f group I) as [_ [issue [J <-]]].
  unfold all in J. rewrite audit_all_issues in J.
  apply in_flat_map in J as [p [Ip J]]. apply suggestions_file in J as [-> _].
  apply H. rewrite find_rust_files_filter in Ip. now apply filter_In in Ip.
Qed.




End Run.

Lemma issues_by_file_order_witness :
  keys (group_by_file (all_issues (audit example_fs [example_b; example_a]))) =
  [py "src/b.rs"; py "lib/a.rs"].
Proof.
  rewrite (issues_by_file_order example_fs [example_b; example_a] example_tree_NoDup).
  reflexivity.
Defined.

(** ** Trimmed text *)

Lemma lstrip_split (s : str) :
  exists ws, s = ws ++ lstrip s /\ forallb isspace ws = true.
Proof.
  induction s as [|c s IH]; [now exists [] |].
  cbn [lstrip]. destruct (isspace c) eqn:E.
  - destruct IH as [ws [E1 E2]]. exists (c :: ws). cbn [app forallb].
    rewrite E, E2. split; [now f_equal | reflexivity].
  - now exists [].
Qed.

Lemma lstrip_head (s : str) (c : char) :
  hd_error (lstrip s) = Some c -> isspace c = false.
Proof.
  induction s as [|x s IH]; cbn [lstrip]; [discriminate |].
  destruct (isspace x) eqn:E; [exact IH |].
  cbn [hd_error]. now intros [= <-].
Qed.

Lemma hd_error_app (a b : str) (c : char) :
  hd_error a = Some c -> hd_error (a ++ b) = Some c.
Proof. now destruct a. Qed.

(** [strip] cuts a run of whitespace at each end and nothing else, and
    what is left neither begins nor ends with whitespace. *)
Lemma strip_spec (s : str) :
  exists a b,
    s = a ++ strip s ++ b /\
    forallb isspace a = true /\ forallb isspace b = true /\
    (forall c, hd_error (strip s) = Some c -> isspace c = false) /\
    (forall c, hd_error (rev (strip s)) = Some c -> isspace c = false).
Proof.
  unfold strip.
  destruct (lstrip_split s) as [a [Ea Ha]].
  destruct (lstrip_split (rev (lstrip s))) as [ws [Ew Hw]].
  set (u := lstrip (rev (lstrip s))) in *.
  assert (Et : lstrip s = rev u ++ rev ws)
    by (now rewrite <- rev_app_distr, <- Ew, rev_involutive).
  exists a, (rev ws). split; [now rewrite <- Et |].
  split; [exact Ha |]. split.
  - rewrite forallb_forall in *. intros x I. apply Hw. now apply in_rev.
  - split.
    + intros c H. apply (lstrip_head s). rewrite Et. now apply hd_error_app.
    + intros c. rewrite rev_involutive. apply lstrip_head.
Qed.

(** The text of a Finding is its line without the whitespace at its two
    ends: it is not empty, it begins and ends with a character that is
    not whitespace, and the line is that text between two runs of
    whitespace. *)
Theorem finding_text_trimmed (file_path : Path) (lines : list str)
  (k : issue_kind) (o : occurrence) :
  In o (occurrences k (fst (analyze_file file_path (ReadOk lines)))) ->
  snd o <> [] /\
  (forall c, hd_error (snd o) = Some c -> isspace c = false) /\
  (forall c, hd_error (rev (snd o)) = Some c -> isspace c = false) /\
  exists line a b,
    nth_error lines (fst o - 1) = Some line /\
    line = a ++ snd o ++ b /\
    forallb isspace a = true /\ forallb isspace b = true.
Proof.
  intros H.
  assert (M : signature k (snd o) = true).
  { pose proof H as H'. rewrite analyze_file_found in H'.
    apply found_In in H' as [l [_ [-> S]]]. now apply signature_strip. }
  apply finding_line in H as [_ [line [N E]]].
  destruct (strip_spec line) as (a & b & S & Ha & Hb & Hh & Hl).
  rewrite <- E in S, Hh, Hl.
  split; [|split; [exact Hh | split; [exact Hl |]]].
  - intros Z. rewrite Z in M. now destruct k.
  - now exists line, a, b.
Qed.

Lemma finding_text_trimmed_witness :
  exists line a b,
    nth_error [py "  a.unwrap(); " ++ [NL]] 0 = Some line /\
    line = a ++ py "a.unwrap();" ++ b /\
    forallb isspace a = true /\ forallb isspace b = true.
Proof.
  apply (finding_text_trimmed example_a [py "  a.unwrap(); " ++ [NL]] Unwrap
           (1, py "a.unwrap();")).
  vm_compute. left. reflexivity.
Defined.

(** ** Files are audited one by one *)

Lemma kept_files_perm (keep : Path -> bool) (files files' : list Path) :
  Permutation files files' -> Permutation (filter keep files) (filter keep files').
Proof.
  induction 1 as [|p l l' P IH|p q l|l l' l'' P1 IH1 P2 IH2]; cbn [filter].
  - constructor.
  - destruct (keep p); [now constructor | exact IH].
  - destruct (keep p), (keep q); try reflexivity. apply perm_swap.
  - now transitivity (filter keep l').
Qed.

Lemma same_path_same_file (files : list Path) (p q : Path) :
  NoDup (map path_str files) -> In p files -> In q files ->
  path_str p = path_str q -> p = q.
Proof.
  induction files as [|x files IH]; intros N Ip Iq E; [destruct Ip |].
  inversion N as [|? ? Hx N']; subst.
  destruct Ip as [-> | Ip], Iq as [-> | Iq]; auto.
  - exfalso. apply Hx. rewrite E. now apply in_map.
  - exfalso. apply Hx. rewrite <- E. now apply in_map.
Qed.

(** Two groupings in strictly ascending order of path with the same
    items are the same list. *)
Lemma sorted_sections_unique (l : Dict) :
  forall l',
    StronglySorted path_lt (keys l) -> StronglySorted path_lt (keys l') ->
    (forall item, In item l <-> In item l') -> l = l'.
Proof.
  induction l as [|x l IH]; intros [|y l'] S S' H.
  - reflexivity.
  - destruct (proj2 (H y) (or_introl eq_refl)).
  - destruct (proj1 (H x) (or_introl eq_refl)).
  - cbn [keys map] in S, S'.
    inversion S as [|? ? Sl Fl]; inversion S' as [|? ? Sl' Fl']; subst.
    rewrite Forall_forall in Fl, Fl'.
    assert (Irr : forall z : str * list Suggestion, ~ path_lt (fst z) (fst z))
      by (intros z Z; unfold path_lt in Z; now rewrite str_ltb_irrefl in Z).
    assert (E : x = y).
    { destruct (proj1 (H x) (or_introl eq_refl)) as [E | Ix]; [now symmetry |].
      destruct (proj2 (H y) (or_introl eq_refl)) as [E | Iy]; [exact E |].
      exfalso. apply (Irr x). apply (str_ltb_trans _ (fst y)).
      - apply Fl. now apply in_map.
      - apply Fl'. now apply in_map. }
    subst y. f_equal. apply IH; auto.
    intros z. split; intros I.
    + destruct (proj1 (H z) (or_intror I)) as [E | J]; [|exact J].
      exfalso. subst z. apply (Irr x), Fl. now apply in_map.
    + destruct (proj2 (H z) (or_intror I)) as [E | J]; [|exact J].
      exfalso. subst z. apply (Irr x), Fl'. now apply in_map.
Qed.

Section Order.

Variable fs : Path -> read_result.


Lemma file_issues_perm (files files' : list Path) (k : str) :
  NoDup (map path_str files) -> Permutation files files' ->
  filter (fun issue => str_eqb (issue_file issue) k)
         (all_issues (audit fs files)) =
  filter (fun issue => str_eqb (issue_file issue) k)
         (all_issues (audit fs files')).
Proof.
  intros N P.
  assert (N' : NoDup (map path_str files'))
    by (apply (Permutation_NoDup (Permutation_map path_str P) N)).
  rewrite !audit_all_issues, !filter_suggestions by assumption.
  destruct (find (fun p => str_eqb (path_str p) k) files) as [p|] eqn:F,
           (find (fun p => str_eqb (path_str p) k) files') as [q|] eqn:F'.
  - apply find_some in F as [Ip Ep], F' as [Iq Eq].
    apply str_eqb_eq in Ep, Eq.
    apply (Permutation_in _ (Permutation_sym P)) in Iq.
    now rewrite (same_path_same_file files p q N Ip Iq) by congruence.
  - apply find_some in F as [Ip Ep]. apply (Permutation_in _ P) in Ip.
    apply (find_none _ _ F') in Ip. congruence.
  - apply find_some in F' as [Iq Eq].
    apply (Permutation_in _ (Permutation_sym P)) in Iq.
    apply (find_none _ _ F) in Iq. congruence.
  - reflexivity.
Qed.

Lemma sections_incl (files files' : list Path) (item : str * list Suggestion) :
  NoDup (map path_str files) -> Permutation files files' ->
  In item (group_by_file (all_issues (audit fs files))) ->
  In item (group_by_file (all_issues (audit fs files'))).
Proof.
  intros N P I. destruct item as [k group].
  destruct (group_by_file_spec (all_issues (audit fs files))) as (_ & G & _).
  destruct (G k group I) as [E [issue [J F]]].
  assert (J' : In issue (all_issues (audit fs files'))).
  { rewrite audit_all_issues in *.
    apply (Permutation_in _ (Permutation_flat_map _ P) J). }
  destruct (group_by_file_member _ issue J') as [group' [M _]].
  destruct (group_by_file_spec (all_issues (audit fs files'))) as (_ & G' & _).
  destruct (G' _ group' M) as [E' _].
  rewrite F in M, E'. rewrite <- (file_issues_perm files files' k N P), <- E in E'.
  now subst group'.
Qed.

(** The summary and the detailed report do not depend on the order in
    which the walk yields the entries: for two walks with the same
    entries in any order (each path once), the totals are the same and
    the sections of the detailed report are the same list. *)
Theorem report_order_independent (tree tree' : list Path) :
  NoDup (map path_str tree) -> Permutation tree tree' ->
  (forall k, total k (audit fs (find_rust_files tree)) =
             total k (audit fs (find_rust_files tree'))) /\
  summary (audit fs (find_rust_files tree)) =
    summary (audit fs (find_rust_files tree')) /\
  detail_sections fs tree = detail_sections fs tree'.
Proof.
  intros N P.
  assert (PF : Permutation (find_rust_files tree) (find_rust_files tree'))
    by (rewrite !find_rust_files_filter; now apply kept_files_perm).
  assert (NF : NoDup (map path_str (find_rust_files tree)))
    by now apply find_rust_files_NoDup.
  assert (NF' : NoDup (map path_str (find_rust_files tree')))
    by (apply (Permutation_NoDup (Permutation_map path_str PF) NF)).
  assert (T : forall k, total k (audit fs (find_rust_files tree)) =
                        total k (audit fs (find_rust_files tree'))).
  { intros k. unfold audit.
    destruct (audit_files_spec fs (find_rust_files tree) (mkAudit [] 0 0 0 []))
      as (_ & -> & _).
    destruct (audit_files_spec fs (find_rust_files tree') (mkAudit [] 0 0 0 []))
      as (_ & -> & _).
    f_equal. apply Permutation_list_sum. now apply Permutation_map. }
  split; [exact T |]. split.
  - unfold summary.
    now rewrite (T Unwrap : total_unwraps _ = _), (T Expect : total_expects _ = _),
      (T Panic : total_panics _ = _).
  - unfold detail_sections. apply sorted_sections_unique.
    + apply sorted_strongly, group_by_file_spec.
    + apply sorted_strongly, group_by_file_spec.
    + intros item. split; intros I.
      * apply (Permutation_in _ (sorted_perm _)) in I.
        apply (Permutation_in _ (Permutation_sym (sorted_perm _))).
        now apply (sections_incl (find_rust_files tree)).
      * apply (Permutation_in _ (sorted_perm _)) in I.
        apply (Permutation_in _ (Permutation_sym (sorted_perm _))).
        apply (sections_incl (find_rust_files tree')); auto.
        now apply Permutation_sym.
Qed.

End Order.

Lemma report_order_independent_witness :
  detail_sections example_fs [example_b; example_a] =
  detail_sections example_fs [example_a; example_b].
Proof.
  apply (report_order_independent example_fs [example_b; example_a]
           [example_a; example_b] example_tree_NoDup).
  apply perm_swap.
Defined.

(** * The run with its exceptions *)

Section RunIO.

Variable stdout_accepts : str -> bool.
Variable script_accepts : str -> bool.
Variable script_opens : bool.

#[local] Abbreviation performs := (perform_all stdout_accepts script_accepts script_opens).
#[local] Abbreviation does := (realises stdout_accepts script_accepts script_opens).

Lemma perform_all_app (a b : list effect) (w : World) :
  performs (a ++ b) w = (performs a ;; performs b) w.
Proof.
  revert w. induction a as [|e a IH]; intros w.
  - cbn [app perform_all]. unfold bind, ret. now destruct (performs b w).
  - cbn [app perform_all]. unfold bind in *.
    destruct (perform stdout_accepts script_accepts script_opens e w) as [[[]|] w'];
      [apply IH | reflexivity].
Qed.

Lemma does_ret {A : Type} (v : A) : does (ret v) [] v.
Proof. intros w. reflexivity. Qed.

Lemma does_bind {A B : Type} (m : IO A) (k : A -> IO B)
  (e1 e2 : list effect) (v1 : A) (v2 : B) :
  does m e1 v1 -> does (k v1) e2 v2 -> does (x <- m ;; k x) (e1 ++ e2) v2.
Proof.
  intros H1 H2 w. unfold bind at 1. rewrite H1.
  unfold bind at 2. rewrite perform_all_app. unfold bind, ret.
  destruct (performs e1 w) as [[[]|] w1]; [|reflexivity].
  rewrite H2. reflexivity.
Qed.

Lemma does_as {A : Type} (m : IO A) (e e' : list effect) (v : A) :
  does m e v -> e = e' -> does m e' v.
Proof. now intros H <-. Qed.

Lemma does_print (s : str) :
  does (print_io stdout_accepts s) [Emit (print s)] tt.
Proof.
  intros w. unfold print_io, bind, perform_all, perform, bind, ret, print.
  cbn [snd]. now destruct (stdout_accepts (s ++ [NL])).
Qed.

Lemma does_open : does (open_script script_opens) [OpenScript] tt.
Proof.
  intros w. unfold bind, perform_all, perform, bind, ret, open_script.
  now destruct script_opens.
Qed.

Lemma does_write (s : str) : does (write_io script_accepts s) [Write s] tt.
Proof.
  intros w. unfold bind, perform_all, perform, bind, ret, write_io.
  now destruct (script_accepts s).
Qed.

Lemma does_for_each {A : Type} (l : list A) (body : A -> IO unit)
  (effects : A -> list effect) :
  (forall x, does (body x) (effects x) tt) ->
  does (for_each l body) (flat_map effects l) tt.
Proof.
  intros H. induction l as [|x l IH]; cbn [for_each flat_map].
  - apply does_ret.
  - apply (does_bind _ _ _ _ tt); [apply H | exact IH].
Qed.

Lemma map_over_flat_map {A B C : Type} (f : B -> C) (g : A -> list B)
  (l : list A) :
  map f (flat_map g l) = flat_map (fun x => map f (g x)) l.
Proof.
  induction l as [|x l IH]; [reflexivity |].
  cbn [flat_map]. now rewrite map_app, IH.
Qed.

Ltac io_write :=
  first [apply does_print | apply does_open | apply does_write | apply does_ret].

Ltac io_seq := repeat (eapply does_bind; [io_write |]).

Lemma does_analyze (file_path : Path) (r : read_result) :
  does (analyze_file_io stdout_accepts file_path r)
       (map Emit (snd (analyze_file file_path r)))
       (fst (analyze_file file_path r)).
Proof.
  destruct r as [lines | e]; cbn [analyze_file analyze_file_io fst snd map].
  - apply does_ret.
  - eapply does_as; [io_seq; io_write | reflexivity].
Qed.

Lemma audit_step_totals (fs : Path -> read_result) (file_path : Path)
  (a : Audit) :
  audit_step file_path (fst (analyze_file file_path (fs file_path))) (totals_of a) =
  totals_of (audit_file fs file_path a).
Proof.
  unfold audit_file, audit_step, totals_of.
  destruct (analyze_file file_path (fs file_path)) as [issues out]. cbn [fst].
  now destruct (any_issues issues).
Qed.

Lemma does_audit (fs : Path -> read_result) (rust_files : list Path) :
  forall a,
    does (audit_files_io stdout_accepts fs rust_files (totals_of a))
         (map Emit (flat_map (fun p => snd (analyze_file p (fs p))) rust_files))
         (totals_of (audit_files fs rust_files a)).
Proof.
  induction rust_files as [|p rest IH]; intros a;
    cbn [audit_files_io audit_files flat_map map].
  - apply does_ret.
  - rewrite map_app. eapply does_bind; [apply does_analyze |].
    rewrite audit_step_totals. apply IH.
Qed.

Lemma does_fix_script (d : Dict) :
  does (generate_fix_script_io stdout_accepts script_accepts script_opens d)
       ([OpenScript] ++ map Write (fix_script_chunks d) ++
        map Emit (snd (generate_fix_script d)))
       tt.
Proof.
  unfold generate_fix_script_io. eapply does_as.
  - io_seq.
    eapply does_bind.
    + apply (does_for_each _ _
               (fun item => map Write (fix_script_file_chunks item))).
      intros item. unfold fix_script_file_chunks. cbn [map].
      eapply does_as.
      * io_seq.
        apply (does_for_each _ _
                 (fun issue => map Write (fix_script_entry_chunks (fst item) issue))).
        intros issue. unfold fix_script_entry_chunks.
        destruct (issue_type issue); (eapply does_as; [io_seq; io_write | reflexivity]).
      * cbn [app]. now rewrite map_over_flat_map.
    + io_seq. io_write.
  - unfold fix_script_chunks. cbn [app map generate_fix_script snd].
    now rewrite map_over_flat_map.
Qed.

Lemma does_report (fs : Path -> read_result) (tree : list Path) :
  does (generate_report_io stdout_accepts script_accepts script_opens fs tree)
       (run_effects fs tree) tt.
Proof.
  unfold generate_report_io, run_effects, report_prints.
  set (rust_files := find_rust_files tree).
  eapply does_as.
  - eapply does_bind; [apply does_print |].
    eapply does_bind; [apply (does_audit fs rust_files (mkAudit [] 0 0 0 [])) |].
    fold (audit fs rust_files). cbv beta iota delta [totals_of].
    io_seq.
    eapply does_bind.
    + apply (does_for_each _ _ (fun item => map Emit (detail_file item))).
      intros item. eapply does_as.
      * io_seq.
        apply (does_for_each _ _ (fun issue => map Emit (detail_issue issue))).
        intros issue. eapply does_as; [io_seq; io_write | reflexivity].
      * unfold detail_file. cbn [map app]. now rewrite map_over_flat_map.
    + apply does_fix_script.
  - destruct (audit_files_spec fs rust_files (mkAudit [] 0 0 0 [])) as (_ & _ & P).
    fold (audit fs rust_files) in P. cbn [printed app] in P.
    rewrite P. unfold summary. rewrite !map_app, !map_over_flat_map.
    cbn [map app]. rewrite <- !app_assoc. cbn [app]. reflexivity.
Qed.

Lemma perform_emits (evs : list event) :
  forall w,
    performs (map Emit evs) w =
    (if snd (accepted_prefix (fun ev => stdout_accepts (snd ev)) evs)
     then Some tt else None,
     mkWorld (w_out w ++
              fst (accepted_prefix (fun ev => stdout_accepts (snd ev)) evs))
             (w_script w)).
Proof.
  induction evs as [|ev evs IH]; intros [out scr];
    cbn [map perform_all accepted_prefix fst snd w_out w_script].
  - unfold ret. now rewrite app_nil_r.
  - unfold bind, perform. cbn [w_out w_script].
    destruct (stdout_accepts (snd ev)); cbn [fst snd].
    + rewrite IH. cbn [w_out w_script]. now rewrite <- app_assoc.
    + now rewrite app_nil_r.
Qed.

Lemma perform_writes (chunks : list str) :
  forall out text,
    performs (map Write chunks) (mkWorld out (Some text)) =
    (if snd (accepted_prefix script_accepts chunks) then Some tt else None,
     mkWorld out (Some (text ++ concat (fst (accepted_prefix script_accepts chunks))))).
Proof.
  induction chunks as [|c chunks IH]; intros out text;
    cbn [map perform_all accepted_prefix fst snd concat].
  - unfold ret. now rewrite app_nil_r.
  - unfold bind, perform, write_io. cbn [w_out w_script option_map].
    destruct (script_accepts c); cbn [fst snd concat].
    + rewrite IH. now rewrite <- app_assoc.
    + now rewrite app_nil_r.
Qed.

Lemma accepted_prefix_all {A : Type} (accepts : A -> bool) (chunks : list A) :
  snd (accepted_prefix accepts chunks) = true ->
  fst (accepted_prefix accepts chunks) = chunks.
Proof.
  induction chunks as [|c chunks IH]; cbn [accepted_prefix]; [reflexivity |].
  destruct (accepts c); cbn [fst snd]; [|discriminate].
  intros H. now rewrite IH.
Qed.

Lemma accepted_prefix_forallb {A : Type} (accepts : A -> bool)
  (chunks : list A) :
  snd (accepted_prefix accepts chunks) = forallb accepts chunks.
Proof.
  induction chunks as [|c chunks IH]; cbn [accepted_prefix forallb];
    [reflexivity |].
  now destruct (accepts c).
Qed.

Lemma accepted_prefix_keeps {A : Type} (P : A -> Prop) (accepts : A -> bool)
  (chunks : list A) :
  Forall P chunks -> Forall P (fst (accepted_prefix accepts chunks)).
Proof.
  induction 1 as [|c chunks Hc H IH]; cbn [accepted_prefix]; [constructor |].
  destruct (accepts c); cbn [fst]; now constructor.
Qed.

Lemma concat_entry_chunks (file : str) (issues : list Suggestion) :
  concat (flat_map (fix_script_entry_chunks file) issues) =
  flat_map (fix_script_entry file) issues.
Proof.
  induction issues as [|issue l IH]; [reflexivity |].
  cbn [flat_map]. rewrite concat_app, IH. f_equal.
  unfold fix_script_entry_chunks, fix_script_entry.
  destruct (issue_type issue); cbn [concat];
    now rewrite app_nil_r, <- !app_assoc.
Qed.

Lemma concat_file_chunks (d : Dict) :
  concat (flat_map fix_script_file_chunks d) = flat_map fix_script_file d.
Proof.
  induction d as [|item d IH]; [reflexivity |].
  cbn [flat_map]. rewrite concat_app, IH. f_equal.
  unfold fix_script_file_chunks, fix_script_file. cbn [concat].
  now rewrite concat_entry_chunks, <- !app_assoc.
Qed.

Lemma concat_fix_script_chunks (d : Dict) :
  concat (fix_script_chunks d) = fst (generate_fix_script d).
Proof.
  unfold fix_script_chunks. cbn [generate_fix_script fst].
  rewrite concat_app, concat_file_chunks. unfold fix_script_header.
  cbn [concat]. now rewrite app_nil_r, <- !app_assoc.
Qed.

Lemma perform_script (chunks : list str) (evs : list event) (out : list event)
  (text : str) :
  performs (map Write chunks ++ map Emit evs) (mkWorld out (Some text)) =
  if snd (accepted_prefix script_accepts chunks) then
    (if snd (accepted_prefix (fun ev => stdout_accepts (snd ev)) evs)
     then Some tt else None,
     mkWorld (out ++ fst (accepted_prefix (fun ev => stdout_accepts (snd ev)) evs))
             (Some (text ++ concat chunks)))
  else
    (None,
     mkWorld out (Some (text ++ concat (fst (accepted_prefix script_accepts chunks))))).
Proof.
  rewrite perform_all_app. unfold bind. rewrite perform_writes.
  destruct (snd (accepted_prefix script_accepts chunks)) eqn:W; [|reflexivity].
  rewrite (accepted_prefix_all _ _ W), perform_emits. reflexivity.
Qed.

(** What a run returns and leaves behind, by the first write that is
    refused. *)
Lemma run_outcome (fs : Path -> read_result) (tree : list Path) (w : World) :
  let d := group_by_file (all_issues (audit fs (find_rust_files tree))) in
  let prints :=
    accepted_prefix (fun ev => stdout_accepts (snd ev)) (report_prints fs tree) in
  let writes := accepted_prefix script_accepts (fix_script_chunks d) in
  let last :=
    accepted_prefix (fun ev => stdout_accepts (snd ev))
                    (snd (generate_fix_script d)) in
  generate_report_io stdout_accepts script_accepts script_opens fs tree w =
  if snd prints then
    if script_opens then
      if snd writes then
        (if snd last then Some tt else None,
         mkWorld (w_out w ++ report_prints fs tree ++ fst last)
                 (Some (fst (generate_fix_script d))))
      else
        (None,
         mkWorld (w_out w ++ report_prints fs tree)
                 (Some (concat (fst writes))))
    else (None, mkWorld (w_out w ++ report_prints fs tree) (w_script w))
  else (None, mkWorld (w_out w ++ fst prints) (w_script w)).
Proof.
  intros d prints writes last.
  rewrite (does_report fs tree w). unfold run_effects. fold d.
  unfold bind at 1. rewrite perform_all_app. unfold bind at 1.
  rewrite perform_emits. fold prints.
  destruct (snd prints) eqn:P; [|reflexivity].
  rewrite (accepted_prefix_all _ _ P : fst prints = _).
  rewrite perform_all_app. unfold bind at 1.
  cbn [perform_all]. unfold bind at 1, perform at 1, open_script, ret.
  cbn [w_out w_script].
  pose proof (perform_script (fix_script_chunks d) (snd (generate_fix_script d))
                (w_out w ++ report_prints fs tree) []) as R.
  fold writes last in R. rewrite concat_fix_script_chunks in R.
  destruct script_opens; [|reflexivity].
  cbv beta iota.
  match type of R with
  | _ = ?done =>
      match goal with
      | |- (let (o, w') := ?run in _) = _ =>
          replace run with done by (symmetry; exact R)
      end
  end.
  cbn [app].
  destruct (snd writes); [|reflexivity].
  rewrite <- app_assoc. now destruct (snd last).
Qed.

(** ** Read failures *)







(** One message is printed on standard output for each file that cannot
    be read, in the order of discovery, and nothing for a file that
    can, as long as standard output takes the messages: then the loop
    returns the findings and the totals of all the files.  The first
    message that standard output refuses ends the loop: the messages
    before it are all that is printed, and nothing is returned. *)
Theorem audit_prints_errors (fs : Path -> read_result)
  (rust_files : list Path) (a : Audit) (w : World) :
  let messages :=
    flat_map (fun p => match fs p with
                       | ReadOk _ => []
                       | ReadErr e =>
                           [(Stdout, py "Error reading " ++ path_str p ++
                                     py ": " ++ e ++ [10%N])]
                       end) rust_files in
  let taken := accepted_prefix (fun ev => stdout_accepts (snd ev)) messages in
  audit_files_io stdout_accepts fs rust_files (totals_of a) w =
  (if snd taken then Some (totals_of (audit_files fs rust_files a)) else None,
   mkWorld (w_out w ++ fst taken) (w_script w)).
Proof.
  intros messages taken. rewrite (does_audit fs rust_files a w).
  unfold bind, ret. rewrite perform_emits, audit_messages.
  change (accepted_prefix _ (flat_map _ rust_files)) with taken.
  now destruct (snd taken).
Qed.

(** ** The script of a run *)

Lemma one_line (l : str) :
  ~ In NL l -> disabled l = true -> disabled_text (l ++ [NL]).
Proof. intros Hn Hd. apply disabled_line; [exact Hn | exact Hd | constructor]. Qed.

Lemma fix_script_entry_chunks_disabled (file : str) (issue : Suggestion) :
  ~ In NL file -> Forall disabled_text (fix_script_entry_chunks file issue).
Proof.
  intros Hf. unfold fix_script_entry_chunks.
  destruct (issue_type issue);
    (apply Forall_cons; [|apply Forall_cons; [|apply Forall_nil]]);
    rewrite ?app_assoc; (apply one_line; [no_line_break | reflexivity]).
Qed.

Lemma fix_script_file_chunks_disabled (item : str * list Suggestion) :
  ~ In NL (fst item) -> Forall disabled_text (fix_script_file_chunks item).
Proof.
  intros Hf. unfold fix_script_file_chunks. apply Forall_cons.
  - apply (disabled_line [] _); [intros [] | reflexivity |].
    rewrite app_assoc. apply one_line; [no_line_break | reflexivity].
  - induction (snd item) as [|issue l IH]; cbn [flat_map]; [constructor |].
    apply Forall_app. split; [now apply fix_script_entry_chunks_disabled | exact IH].
Qed.

Lemma fix_script_chunks_disabled (d : Dict) :
  (forall file, In file (keys d) -> ~ In NL file) ->
  Forall disabled_text (fix_script_chunks d).
Proof.
  intros H. unfold fix_script_chunks. apply Forall_app. split.
  - apply Forall_cons; [|apply Forall_cons; [|apply Forall_cons; [|apply Forall_nil]]].
    + apply one_line; [now apply py_no_NL | reflexivity].
    + apply one_line; [now apply py_no_NL | reflexivity].
    + apply (disabled_line (py "# Review each change before running!") [NL]);
        [now apply py_no_NL | reflexivity |].
      apply (disabled_line [] []); [intros [] | reflexivity | constructor].
  - induction d as [|item d IH]; cbn [flat_map]; [constructor |].
    apply Forall_app. split.
    + apply fix_script_file_chunks_disabled, H. now left.
    + apply IH. intros file I. apply H. now right.
Qed.

Lemma concat_disabled (chunks : list str) :
  Forall disabled_text chunks -> disabled_text (concat chunks).
Proof.
  induction 1 as [|c chunks Hc H IH]; cbn [concat]; [constructor |].
  now apply disabled_text_app.
Qed.

Lemma written_disabled (d : Dict) :
  (forall file, In file (keys d) -> ~ In NL file) ->
  Forall (fun l => disabled l = true)
         (split_lines (concat (fst (accepted_prefix script_accepts
                                      (fix_script_chunks d))))).
Proof.
  intros H. apply disabled_text_lines, concat_disabled, accepted_prefix_keeps.
  now apply fix_script_chunks_disabled.
Qed.

Lemma fix_script_holds_entry (d : Dict) (file : str)
  (issues : list Suggestion) (issue : Suggestion) :
  In (file, issues) d -> In issue issues ->
  substring (fix_script_entry file issue) (fst (generate_fix_script d)).
Proof.
  intros I J. cbn [generate_fix_script fst].
  apply in_split in I as [d1 [d2 ->]]. apply in_split in J as [l1 [l2 ->]].
  rewrite flat_map_app. cbn [flat_map]. unfold fix_script_file at 2.
  cbn [fst snd]. rewrite flat_map_app. cbn [flat_map].
  exists (fix_script_header ++ flat_map fix_script_file d1 ++
          [NL] ++ py "# Fixes for " ++ file ++ [NL] ++
          flat_map (fix_script_entry file) l1).
  exists (flat_map (fix_script_entry file) l2 ++ flat_map fix_script_file d2).
  now rewrite <- !app_assoc.
Qed.

Ltac case_prints :=
  match goal with
  | |- context [@accepted_prefix ?A ?f (report_prints ?fs ?tree)] =>
      destruct (snd (@accepted_prefix A f (report_prints fs tree)))
  end.

(** The script that a run leaves, whether the run ends or is cut short
    by an exception: when no path of the tree holds a line break, every
    line of it is blank or begins with the comment character.  And,
    whatever the paths, after a run that ends without an exception the
    script holds the two-line entry of every Finding. *)
Theorem script_disabled (fs : Path -> read_result) (tree : list Path) :
  let run :=
    generate_report_io stdout_accepts script_accepts script_opens
                       fs tree start in
  ((forall p, In p tree -> ~ In 10%N (path_str p)) ->
   forall text,
     w_script (snd run) = Some text ->
     Forall (fun l => disabled l = true) (split_lines text)) /\
  (fst run = Some tt ->
   exists text,
     w_script (snd run) = Some text /\
     forall issue,
       In issue (all_issues (audit fs (find_rust_files tree))) ->
       substring
         (py "# Line " ++ str_of_nat (issue_line issue) ++
          match issue_type issue with
          | Unwrap =>
              py ": Replace unwrap()" ++ [10%N] ++
              py "# sed -i '' 's/\.unwrap()/\?/g' " ++ issue_file issue ++
              [10%N]
          | Expect =>
              py ": Replace expect()" ++ [10%N] ++
              py "# Manual fix needed" ++ [10%N]
          | Panic =>
              py ": Replace panic!" ++ [10%N] ++
              py "# Manual fix needed" ++ [10%N]
          end)
         text).
Proof.
  intros run. pose proof (run_outcome fs tree start) as O.
  cbv zeta in O. fold run in O.
  set (d := group_by_file (all_issues (audit fs (find_rust_files tree)))) in *.
  split.
  - intros H text.
    pose proof (written_disabled d (grouping_keys_no_line_break fs tree H)) as D.
    rewrite O.
    case_prints;
      [|intros E; discriminate E].
    destruct script_opens; [|intros E; discriminate E].
    destruct (snd (accepted_prefix script_accepts (fix_script_chunks d))) eqn:W;
      cbn [snd w_script]; intros E.
    + replace text with (concat (fix_script_chunks d))
        by (rewrite concat_fix_script_chunks; congruence).
      rewrite <- (accepted_prefix_all _ _ W). exact D.
    + replace text
        with (concat (fst (accepted_prefix script_accepts (fix_script_chunks d))))
        by congruence.
      exact D.
  - rewrite O.
    case_prints;
      [|intros R; discriminate R].
    destruct script_opens; [|intros R; discriminate R].
    destruct (snd (accepted_prefix script_accepts (fix_script_chunks d)));
      [|intros R; discriminate R].
    intros _. cbn [snd w_script]. eexists. split; [reflexivity |].
    intros issue I.
    destruct (group_by_file_member _ issue I) as [group [J M]].
    pose proof (fix_script_holds_entry d (issue_file issue) group issue J M) as S.
    unfold fix_script_entry in S. now destruct (issue_type issue).
Qed.

(** ** The run and the report *)

Lemma output_prints (fs : Path -> read_result) (tree : list Path) :
  output (generate_report fs tree) =
  report_prints fs tree ++
  snd (generate_fix_script
         (group_by_file (all_issues (audit fs (find_rust_files tree))))).
Proof.
  unfold generate_report, report_prints.
  cbn [generate_fix_script output snd]. now rewrite <- !app_assoc.
Qed.

Lemma accepted_prefix_split {A : Type} (accepts : A -> bool)
  (chunks : list A) :
  exists rest, chunks = fst (accepted_prefix accepts chunks) ++ rest.
Proof.
  induction chunks as [|c chunks [rest IH]]; cbn [accepted_prefix];
    [now exists [] |].
  destruct (accepts c); cbn [fst].
  - exists rest. cbn [app]. now rewrite <- IH.
  - now exists (c :: chunks).
Qed.

(** An exception cuts a run short and changes nothing else: what a run
    has printed begins the output of [generate_report], and is all of
    it when the run ends without an exception; what it has written to
    the script begins the script of [generate_report]. *)
Lemma run_prefix (fs : Path -> read_result) (tree : list Path) :
  let run :=
    generate_report_io stdout_accepts script_accepts script_opens
                       fs tree start in
  (fst run = Some tt ->
   snd run = mkWorld (output (generate_report fs tree))
                     (Some (script (generate_report fs tree)))) /\
  (exists rest, output (generate_report fs tree) = w_out (snd run) ++ rest) /\
  (forall text,
      w_script (snd run) = Some text ->
      exists rest, script (generate_report fs tree) = text ++ rest).
Proof.
  intros run. pose proof (run_outcome fs tree start) as O.
  cbv zeta in O. fold run in O. rewrite O, output_prints.
  set (d := group_by_file (all_issues (audit fs (find_rust_files tree)))).
  change (script (generate_report fs tree)) with (fst (generate_fix_script d)).
  match goal with
  | |- context [@accepted_prefix ?A ?f (report_prints fs tree)] =>
      destruct (accepted_prefix_split f (report_prints fs tree)) as [r1 E1];
      destruct (snd (@accepted_prefix A f (report_prints fs tree))) eqn:P
  end.
  2:{ cbn [fst snd w_out w_script start app].
      split; [intros R; discriminate R |]. split; [|intros text R; discriminate R].
      exists (r1 ++ snd (generate_fix_script d)).
      now rewrite app_assoc, <- E1. }
  destruct script_opens.
  2:{ cbn [fst snd w_out w_script start app].
      split; [intros R; discriminate R |]. split; [|intros text R; discriminate R].
      now exists (snd (generate_fix_script d)). }
  destruct (accepted_prefix_split script_accepts (fix_script_chunks d)) as [r2 E2].
  destruct (snd (accepted_prefix script_accepts (fix_script_chunks d))) eqn:W.
  2:{ cbn [fst snd w_out w_script start app].
      split; [intros R; discriminate R |]. split.
      - now exists (snd (generate_fix_script d)).
      - intros text R. exists (concat r2).
        replace text
          with (concat (fst (accepted_prefix script_accepts (fix_script_chunks d))))
          by congruence.
        rewrite <- concat_fix_script_chunks, <- concat_app.
        apply f_equal. exact E2. }
  match goal with
  | |- context [@accepted_prefix ?A ?f (snd (generate_fix_script d))] =>
      destruct (accepted_prefix_split f (snd (generate_fix_script d))) as [r3 E3];
      destruct (snd (@accepted_prefix A f (snd (generate_fix_script d)))) eqn:L
  end.
  - cbn [fst snd w_out w_script start app].
    rewrite (accepted_prefix_all _ _ L).
    split; [reflexivity |]. split.
    + exists []. now rewrite app_nil_r.
    + intros text R. exists []. rewrite app_nil_r. congruence.
  - cbn [fst snd w_out w_script start app].
    split; [intros R; discriminate R |]. split.
    + exists r3. rewrite <- app_assoc. apply f_equal. exact E3.
    + intros text R. exists []. rewrite app_nil_r. congruence.
Qed.


Ltac taken H :=
  match type of H with
  | snd (@accepted_prefix _ _ ?l) = ?b =>
      match goal with
      | |- context [@accepted_prefix ?A ?f l] =>
          replace (snd (@accepted_prefix A f l)) with b by (symmetry; exact H)
      end
  end.

(** When standard output takes every line of the report and the script
    can be opened and takes every text written to it, the run ends
    without an exception, and it has printed the report and written the
    script that [generate_report] gives: what is proved of these holds
    of the run. *)
Theorem generate_report_io_complete (fs : Path -> read_result)
  (tree : list Path) :
  forallb (fun ev => stdout_accepts (snd ev)) (output (generate_report fs tree)) =
    true ->
  script_opens = true ->
  forallb script_accepts
    (fix_script_chunks
       (group_by_file (all_issues (audit fs (find_rust_files tree))))) = true ->
  generate_report_io stdout_accepts script_accepts script_opens fs tree start =
  (Some tt,
   mkWorld (output (generate_report fs tree))
           (Some (script (generate_report fs tree)))).
Proof.
  intros P O W. rewrite run_outcome. cbv zeta.
  rewrite output_prints, forallb_app in P. apply andb_true_iff in P as [P L].
  rewrite <- accepted_prefix_forallb in P. rewrite <- accepted_prefix_forallb in L.
  rewrite <- accepted_prefix_forallb in W.
  taken P. taken W. taken L. rewrite O.
  match goal with
  | |- context [fst (@accepted_prefix ?A ?f ?l)] =>
      replace (fst (@accepted_prefix A f l)) with l
        by (symmetry; apply accepted_prefix_all; exact L)
  end.
  rewrite output_prints. reflexivity.
Qed.

(** What a run returns and leaves behind in general.  It prints the
    report up to the first line that standard output refuses and stops
    there with an exception; otherwise it opens the script, and stops
    if that fails; otherwise it writes the script up to the first text
    that the file refuses, and stops there, leaving the texts written
    so far in the file; otherwise it prints its two closing lines, as
    far as standard output takes them. *)
Theorem generate_report_io_outcome (fs : Path -> read_result)
  (tree : list Path) (w : World) :
  let d := group_by_file (all_issues (audit fs (find_rust_files tree))) in
  let prints :=
    accepted_prefix (fun ev => stdout_accepts (snd ev)) (report_prints fs tree) in
  let writes := accepted_prefix script_accepts (fix_script_chunks d) in
  let last :=
    accepted_prefix (fun ev => stdout_accepts (snd ev))
      [(Stdout, 10%N :: py "Fix script generated: apply_unwrap_fixes.sh" ++ [10%N]);
       (Stdout, py "Review and edit the script before running!" ++ [10%N])] in
  generate_report_io stdout_accepts script_accepts script_opens fs tree w =
  if snd prints then
    if script_opens then
      if snd writes then
        (if snd last then Some tt else None,
         mkWorld (w_out w ++ report_prints fs tree ++ fst last)
                 (Some (concat (fix_script_chunks d))))
      else
        (None,
         mkWorld (w_out w ++ report_prints fs tree)
                 (Some (concat (fst writes))))
    else (None, mkWorld (w_out w ++ report_prints fs tree) (w_script w))
  else (None, mkWorld (w_out w ++ fst prints) (w_script w)).
Proof.
  cbv zeta. rewrite concat_fix_script_chunks. exact (run_outcome fs tree w).
Qed.

(** An exception cuts a run short and changes nothing else.  Whatever
    standard output and the script file take, what the run has printed
    is a beginning of the report of [generate_report], and all of it
    when the run ends without an exception; and what it has written to
    the script is a beginning of the script of [generate_report], and
    all of it when the run ends without an exception. *)
Theorem generate_report_io_prefix (fs : Path -> read_result)
  (tree : list Path) :
  let run :=
    generate_report_io stdout_accepts script_accepts script_opens
                       fs tree start in
  (fst run = Some tt ->
   snd run = mkWorld (output (generate_report fs tree))
                     (Some (script (generate_report fs tree)))) /\
  (exists rest, output (generate_report fs tree) = w_out (snd run) ++ rest) /\
  (forall text,
      w_script (snd run) = Some text ->
      exists rest, script (generate_report fs tree) = text ++ rest).
Proof. exact (run_prefix fs tree). Qed.

End RunIO.

(** ** Runs on example trees *)




Lemma script_disabled_witness :
  let fs := fun _ : Path => ReadOk [py "let n = s.parse().unwrap();" ++ [NL]] in
  let run :=
    generate_report_io (fun _ => true) utf8_accepts true fs
                       [example_a; undecodable_path] start in
  let text :=
    py "#!/bin/bash" ++ [NL] ++
    py "# Script to apply unwrap fixes" ++ [NL] ++
    py "# Review each change before running!" ++ [NL] ++ [NL] ++
    [NL] ++ py "# Fixes for lib/a.rs" ++ [NL] ++
    py "# Line 1: Replace unwrap()" ++ [NL] ++
    py "# sed -i '' 's/\.unwrap()/\?/g' lib/a.rs" ++ [NL] in
  fst run = None /\
  w_script (snd run) = Some text /\
  Forall (fun l => disabled l = true) (split_lines text).
Proof.
  intros fs run text.
  assert (E : w_script (snd run) = Some text) by (vm_compute; reflexivity).
  split; [vm_compute; reflexivity |]. split; [exact E |].
  apply (proj1 (script_disabled (fun _ => true) utf8_accepts true fs
                  [example_a; undecodable_path])); [|exact E].
  intros p [<- | [<- | []]]; not_among.
Defined.

Lemma generate_report_io_complete_witness :
  generate_report_io utf8_accepts utf8_accepts true example_fs
                     [example_b; example_a] start =
  (Some tt,
   mkWorld (output (generate_report example_fs [example_b; example_a]))
           (Some (script (generate_report example_fs [example_b; example_a])))).
Proof.
  apply (generate_report_io_complete utf8_accepts utf8_accepts true example_fs
           [example_b; example_a]); reflexivity.
Defined.
